(** * The heap-access barrier set: checked array copy and start-up hooks

    A shallow embedding of
      - [src/hotspot/share/gc/shared/barrierSet.inline.hpp]
        ([BarrierSet::AccessBarrier::oop_arraycopy_in_heap]) and
      - [src/hotspot/share/gc/shared/barrierSet.cpp]
        ([BarrierSet::set_barrier_set], the two [throw_array_*] helpers and
        [gc_barrier_stubs_init]),
    followed by the properties of the barrier-set specification that can be
    stated over it.

    Conventions.  Pointers ([T*], [oop], [arrayOop]) are addresses in [Z];
    pointer arithmetic is exact (no wrap-around is modelled, overflowing a
    pointer being undefined in the source language).  [size_t] element
    counts are [nat].  The element slots of the heap form a store indexed by
    the address of the slot; source and destination of a copy are two
    addresses into that one store, so that overlapping ranges alias.  Two
    slots are the same slot or share no byte: element pointers are aligned
    to the element size, as the source language requires of a [T*]. *)

From Stdlib Require Import ZArith List String Bool Lia Sorted.
Import ListNotations.
Local Open Scope Z_scope.

Set Implicit Arguments.

(* ===================================================================== *)
(** * External collaborators                                              *)
(* ===================================================================== *)

Definition address := Z.

(** An [oop] is the address of an object; [arrayOop] and [objArrayOop] are
    oops as well. *)
Definition oop := Z.
Definition NULL : oop := 0.

(** The type-system collaborator: read-only queries on [Klass*].
    [element_klass] is [ObjArrayKlass::cast(k)->element_klass()]. *)
Class KlassOps (Klass : Type) := {
  element_klass : Klass -> Klass;
  is_subtype_of : Klass -> Klass -> bool;
  external_name : Klass -> string
}.

(** Modelled from the spec: the element type [T] of the copy template
    ([oop] or [narrowOop]) with [CompressedOops::is_null] and
    [CompressedOops::decode] (oops/compressedOops.inline.hpp is not among
    the sources), taken as parameters.  [heapOopSize] is [sizeof(T)], the
    stride of [src++] and [dst++].  "The element is null" and "the element
    is non-null" are one test: the null element decodes to the null
    reference. *)
Class HeapOop (T : Type) := {
  heapOopSize : Z;
  is_null : T -> bool;
  decode : T -> oop;
  heapOopSize_pos : 0 < heapOopSize;
  decode_null : forall elem, is_null elem = true -> decode elem = NULL
}.

(** Modelled from the spec: [DecoratorSet] and [HasDecorator]
    (oops/accessDecorators.hpp is not among the sources).  "Compile-time
    flags on an access site": a set of flag bits, [HasDecorator<d, x>::value]
    telling whether [(d & x) != 0].  The two flags read by the copy are
    constants of that header, taken here as parameters. *)
Definition DecoratorSet := Z.

Definition HasDecorator (decorators decorator : DecoratorSet) : bool :=
  negb (Z.land decorators decorator =? 0).

Class ArraycopyDecorators := {
  ARRAYCOPY_CHECKCAST : DecoratorSet;
  ARRAYCOPY_NOTNULL : DecoratorSet
}.

(* ===================================================================== *)
(** * Threads and pending exceptions                                      *)
(* ===================================================================== *)

Inductive Symbol :=
| java_lang_NullPointerException
| java_lang_ArrayStoreException.

Record Exception := mkException {
  exception_class : Symbol;
  exception_message : string
}.

(** The part of [Thread] this code looks at.  A raised exception is left
    pending in the thread ([TRAPS]); the raising function then returns. *)
Record Thread := mkThread {
  thread_id : nat;
  is_Java_thread : bool;
  on_thread_list : bool;
  pending_exception : option Exception
}.

Definition set_pending_exception (e : Exception) (t : Thread) : Thread :=
  {| thread_id := thread_id t;
     is_Java_thread := is_Java_thread t;
     on_thread_list := on_thread_list t;
     pending_exception := Some e |}.

(* ===================================================================== *)
(** * The heap and the machine state of a copy                            *)
(* ===================================================================== *)

(** Element accesses, in program order.  [LoadElem] and [StoreElem] are the
    per-element accesses of the checked loop; [RawCopy] is one call of the
    strategy's raw-copy primitive over two flat ranges. *)
Inductive access :=
| LoadElem (p : address)
| StoreElem (p : address)
| RawCopy (src dst : address) (length : nat).

Section Machine.
Context {Klass T : Type}.

(** [klass] is the header read [obj->klass()]; [slot] the element slots. *)
Record Heap := mkHeap {
  klass : oop -> Klass;
  slot : address -> T
}.

Record Machine := mkMachine {
  heap : Heap;
  current : Thread;          (* JavaThread::current() *)
  trace : list access
}.

Definition update (f : address -> T) (p : address) (v : T) : address -> T :=
  fun q => if q =? p then v else f q.

(** [*p] *)
Definition load (p : address) (m : Machine) : T * Machine :=
  (slot (heap m) p,
   {| heap := heap m; current := current m; trace := trace m ++ [LoadElem p] |}).

(** [*p = v] *)
Definition store (p : address) (v : T) (m : Machine) : Machine :=
  {| heap := {| klass := klass (heap m); slot := update (slot (heap m)) p v |};
     current := current m;
     trace := trace m ++ [StoreElem p] |}.

(** Modelled from the spec: the [THROW_MSG] macro (utilities/exceptions.hpp
    is not among the sources).  "Raises a named, catchable condition ...
    carrying a constructed message": the exception becomes the pending
    exception of [THREAD] and the raising function returns. *)
Definition THROW_MSG (name : Symbol) (message : string) (m : Machine)
  : Machine :=
  {| heap := heap m;
     current := set_pending_exception (mkException name message) (current m);
     trace := trace m |}.
End Machine.

Arguments Heap : clear implicits.
Arguments Machine : clear implicits.

Section ArrayCopy.
Context {Klass : Type} `{KlassOps Klass}.
Context {T : Type} `{HeapOop T}.
Context `{ArraycopyDecorators}.

(** Modelled from the spec: [arrayOopDesc::obj_offset_to_raw]
    (oops/arrayOop.hpp is not among the sources).  "Resolve absolute
    source/destination start addresses from the pointer/offset inputs":
    a view with an object is the object's address plus the byte offset, a
    view without one is its raw pointer. *)
Definition obj_offset_to_raw (obj : oop) (offset_in_bytes : Z) (raw : address)
  : address :=
  if obj =? NULL then raw else obj + offset_in_bytes.

(** [objArrayOop(obj)->element_klass()] *)
Definition objArrayOop_element_klass (h : Heap Klass T) (obj : oop) : Klass :=
  element_klass (klass h obj).

(** Modelled from the spec: [oopDesc::is_instanceof_or_null]
    (oops/oop.inline.hpp is not among the sources).  The cast check
    rejects an element that "is non-null, and ... is not an instance of
    the destination's declared element type". *)
Definition is_instanceof_or_null (h : Heap Klass T) (obj : oop) (k : Klass) : bool :=
  (obj =? NULL) || is_subtype_of (klass h obj) k.

(** ** The raw-copy primitive *)

(** The [n] elements starting at [p], and writing a list of elements to
    consecutive slots starting at [p]. *)
Fixpoint load_range (f : address -> T) (p : address) (n : nat) : list T :=
  match n with
  | O => []
  | S n' => f p :: load_range f (p + heapOopSize) n'
  end.

Fixpoint store_range (f : address -> T) (p : address) (elems : list T)
  : address -> T :=
  match elems with
  | [] => f
  | e :: rest => store_range (update f p e) (p + heapOopSize) rest
  end.

(** Modelled from the spec: the strategy's raw-copy primitive
    [Raw::oop_arraycopy] (oops/accessBackend is not among the sources).
    "Opaque bulk reference copy over two flat address ranges and a
    length", "a flat bulk copy of [n] elements": the destination range
    receives the [n] elements the source range held on entry; the call is
    one [RawCopy] access. *)
Definition Raw_oop_arraycopy
    (src_obj : oop) (src_offset_in_bytes : Z) (src_raw : address)
    (dst_obj : oop) (dst_offset_in_bytes : Z) (dst_raw : address)
    (length : nat) (m : Machine Klass T) : Machine Klass T :=
  let src := obj_offset_to_raw src_obj src_offset_in_bytes src_raw in
  let dst := obj_offset_to_raw dst_obj dst_offset_in_bytes dst_raw in
  {| heap := {| klass := klass (heap m);
                slot := store_range (slot (heap m)) dst
                          (load_range (slot (heap m)) src length) |};
     current := current m;
     trace := trace m ++ [RawCopy src dst length] |}.

(** ** barrierSet.cpp: the two exception helpers *)

Definition null_pointer_store_message (bound : Klass) : string :=
  ("arraycopy: can not copy null values into "
     ++ external_name bound ++ "[]")%string.

Definition throw_array_null_pointer_store_exception
    (src dst : oop) (m : Machine Klass T) : Machine Klass T :=
  let bound := element_klass (klass (heap m) dst) in
  let ss := null_pointer_store_message bound in
  THROW_MSG java_lang_NullPointerException ss m.

Definition array_store_message (stype bound : Klass) : string :=
  if negb (is_subtype_of bound stype) then
    ("arraycopy: type mismatch: can not copy "
       ++ external_name stype ++ "[] into " ++ external_name bound ++ "[]")%string
  else
    ("arraycopy: element type mismatch: can not cast one of the elements"
       ++ " of " ++ external_name stype
       ++ "[] to the type of the destination array, "
       ++ external_name bound)%string.

Definition throw_array_store_exception
    (src dst : oop) (m : Machine Klass T) : Machine Klass T :=
  let bound := element_klass (klass (heap m) dst) in
  let stype := element_klass (klass (heap m) src) in
  let ss := array_store_message stype bound in
  THROW_MSG java_lang_ArrayStoreException ss m.

(** ** barrierSet.inline.hpp: [oop_arraycopy_in_heap] *)

(** The loop
    [for (const T* const end = src + length; src < end; src++, dst++)].
    [fuel] bounds the number of iterations; the caller passes [length],
    which is the number of iterations the loop makes at most: more fuel
    gives the same result (lemma [copy_loop_fuel] below), so the [O] branch
    is only ever reached with [src = end]. *)
Fixpoint copy_loop (decorators : DecoratorSet) (src_obj dst_obj : oop)
    (dst_klass : Klass) (fuel : nat) (end_ src dst : address) (m : Machine Klass T)
  : Machine Klass T :=
  match fuel with
  | O => m
  | S fuel' =>
    if src <? end_ then
      let (elem, m1) := load src m in
      if HasDecorator decorators ARRAYCOPY_NOTNULL && is_null elem then
        throw_array_null_pointer_store_exception src_obj dst_obj m1
      else if HasDecorator decorators ARRAYCOPY_CHECKCAST
              && negb (is_instanceof_or_null (heap m1) (decode elem) dst_klass) then
        throw_array_store_exception src_obj dst_obj m1
      else
        copy_loop decorators src_obj dst_obj dst_klass fuel' end_
          (src + heapOopSize) (dst + heapOopSize) (store dst elem m1)
    else m
  end.

Definition oop_arraycopy_in_heap (decorators : DecoratorSet)
    (src_obj : oop) (src_offset_in_bytes : Z) (src_raw : address)
    (dst_obj : oop) (dst_offset_in_bytes : Z) (dst_raw : address)
    (length : nat) (m : Machine Klass T) : Machine Klass T :=
  let src := obj_offset_to_raw src_obj src_offset_in_bytes src_raw in
  let dst := obj_offset_to_raw dst_obj dst_offset_in_bytes dst_raw in
  if negb (HasDecorator decorators ARRAYCOPY_CHECKCAST)
     && negb (HasDecorator decorators ARRAYCOPY_NOTNULL) then
    (* Covariant, copy without checks *)
    Raw_oop_arraycopy NULL 0 src NULL 0 dst length m
  else
    (* Copy each element with checking casts *)
    let dst_klass := objArrayOop_element_klass (heap m) dst_obj in
    copy_loop decorators src_obj dst_obj dst_klass length
      (src + Z.of_nat length * heapOopSize) src dst m.
End ArrayCopy.

(* ===================================================================== *)
(** * barrierSet.cpp: the global barrier set and the start-up hooks      *)
(* ===================================================================== *)

(** The stub generator of a strategy. *)
Record BarrierSetAssembler := mkBarrierSetAssembler {
  assembler_id : nat
}.

(** Modelled from the spec: the [BarrierSet] object (gc/shared/barrierSet.hpp
    is not among the sources).  "Attributes: a kind tag and an optional
    owned stub-generator capability"; [barrier_set_assembler()] reads
    [_barrier_set_assembler]. *)
Record BarrierSet := mkBarrierSet {
  kind : nat;
  _barrier_set_assembler : option BarrierSetAssembler
}.

(** Calls into the strategy made by this file, in program order. *)
Inductive notification :=
| on_thread_create (receiver : BarrierSet) (thread : Thread)
| barrier_stubs_init (receiver : BarrierSetAssembler).

(** [_barrier_set] is the static [BarrierSet::_barrier_set], [None] being
    the initial [NULL]; [Thread_current] is [Thread::current()]. *)
Record VM := mkVM {
  _barrier_set : option BarrierSet;
  Thread_current : Thread;
  notifications : list notification
}.

Definition initial_VM (main : Thread) : VM :=
  {| _barrier_set := None; Thread_current := main; notifications := [] |}.

(** A call returns to a running VM, halts it with a fatal error, or
    dereferences [NULL]. *)
Inductive result :=
| Ok (vm : VM)
| Fatal (message : string)
| Undefined.

(** Modelled from the spec: the [assert] macro (utilities/debug.hpp is not
    among the sources).  A violated contract "fails fatally (contract
    violation, not recoverable)": the VM halts with the message instead of
    continuing. *)
Definition assert (condition : bool) (message : string) (continue : result)
  : result :=
  if condition then continue else Fatal message.

Definition notify (n : notification) (vm : VM) : VM :=
  {| _barrier_set := _barrier_set vm;
     Thread_current := Thread_current vm;
     notifications := notifications vm ++ [n] |}.

Definition is_NULL {A : Type} (p : option A) : bool :=
  match p with None => true | Some _ => false end.

(** [barrier_set] is a barrier set instance, as the callers pass; a [NULL]
    argument is not modelled. *)
Definition set_barrier_set (barrier_set : BarrierSet) (vm : VM) : result :=
  assert (is_NULL (_barrier_set vm)) "Already initialized" (
  let vm := {| _barrier_set := Some barrier_set;
               Thread_current := Thread_current vm;
               notifications := notifications vm |} in
  assert (is_Java_thread (Thread_current vm))
         "Expected main thread to be a JavaThread" (
  assert (negb (on_thread_list (Thread_current vm)))
         "Main thread already on thread list." (
  match _barrier_set vm with
  | Some receiver => Ok (notify (on_thread_create receiver (Thread_current vm)) vm)
  | None => Undefined
  end))).

(** [ZERO] tells whether the build defines the [ZERO] macro (the
    execution mode without generated code). *)
Definition gc_barrier_stubs_init (ZERO : bool) (vm : VM) : result :=
  let bs := _barrier_set vm in           (* BarrierSet::barrier_set() *)
  if ZERO then Ok vm
  else
    match bs with
    | None => Undefined
    | Some bs =>
      match _barrier_set_assembler bs with
      | None => Undefined
      | Some bs_assembler => Ok (notify (barrier_stubs_init bs_assembler) vm)
      end
    end.

(** Any sequence of calls of the two entry points, stopping at the first
    call that does not return. *)
Inductive call :=
| call_set_barrier_set (barrier_set : BarrierSet)
| call_gc_barrier_stubs_init.

Definition do_call (ZERO : bool) (c : call) (vm : VM) : result :=
  match c with
  | call_set_barrier_set barrier_set => set_barrier_set barrier_set vm
  | call_gc_barrier_stubs_init => gc_barrier_stubs_init ZERO vm
  end.

Fixpoint run (ZERO : bool) (calls : list call) (vm : VM) : result :=
  match calls with
  | [] => Ok vm
  | c :: rest =>
    match do_call ZERO c vm with
    | Ok vm' => run ZERO rest vm'
    | halted => halted
    end
  end.

(* ===================================================================== *)
(** * Vocabulary of the properties                                        *)
(* ===================================================================== *)

(** [sub] occurs in [s]. *)
Definition mentions (sub s : string) : Prop :=
  exists before after, s = (before ++ sub ++ after)%string.

(** Addresses of the element slots an access reads and writes. *)
Fixpoint addresses (stride : Z) (p : address) (n : nat) : list address :=
  match n with
  | O => []
  | S n' => p :: addresses stride (p + stride) n'
  end.

Definition elements_read (stride : Z) (a : access) : list address :=
  match a with
  | LoadElem p => [p]
  | StoreElem _ => []
  | RawCopy src _ n => addresses stride src n
  end.

Definition elements_written (stride : Z) (a : access) : list address :=
  match a with
  | LoadElem _ => []
  | StoreElem p => [p]
  | RawCopy _ dst n => addresses stride dst n
  end.

Section Vocabulary.
Context {Klass : Type} `{KlassOps Klass}.
Context {T : Type} `{HeapOop T}.
Context `{ArraycopyDecorators}.

(** Address of the element at index [i] of the range starting at [p]. *)
Definition element_address (p : address) (i : nat) : address :=
  p + Z.of_nat i * heapOopSize.

(** Source element [i] as the heap holds it. *)
Definition element (h : Heap Klass T) (p : address) (i : nat) : T :=
  slot h (element_address p i).

(** The byte ranges of [n] elements at [src] and at [dst] do not overlap. *)
Definition disjoint_ranges (src dst : address) (n : nat) : Prop :=
  element_address src n <= dst \/ element_address dst n <= src.

(** The element passes the cast check against [dst_klass]. *)
Definition assignable (h : Heap Klass T) (dst_klass : Klass) (elem : T) : Prop :=
  is_instanceof_or_null h (decode elem) dst_klass = true.

(** The accesses of the checked loop over indices [0 .. k-1], in order:
    element [i] is read, then stored. *)
Definition checked_trace (src dst : address) (k : nat) : list access :=
  flat_map (fun i => [LoadElem (element_address src i); StoreElem (element_address dst i)])
           (seq 0 k).

(** The two per-element tests of the loop body. *)
Definition null_refused (decorators : DecoratorSet) (elem : T) : bool :=
  HasDecorator decorators ARRAYCOPY_NOTNULL && is_null elem.

Definition cast_refused (decorators : DecoratorSet) (h : Heap Klass T)
    (dst_klass : Klass) (elem : T) : bool :=
  HasDecorator decorators ARRAYCOPY_CHECKCAST
  && negb (is_instanceof_or_null h (decode elem) dst_klass).

(** What the loop body decides on reading [elem]: the exception it raises,
    or [None] when the element is stored and the loop advances. *)
Definition check_element (decorators : DecoratorSet) (h : Heap Klass T)
    (src_obj dst_obj : oop) (dst_klass : Klass) (elem : T) : option Exception :=
  if HasDecorator decorators ARRAYCOPY_NOTNULL && is_null elem then
    Some (mkException java_lang_NullPointerException
            (null_pointer_store_message (element_klass (klass h dst_obj))))
  else if HasDecorator decorators ARRAYCOPY_CHECKCAST
          && negb (is_instanceof_or_null h (decode elem) dst_klass) then
    Some (mkException java_lang_ArrayStoreException
            (array_store_message (element_klass (klass h src_obj))
                                 (element_klass (klass h dst_obj))))
  else None.
(** The state of the loop after [k] elements went through, for ranges that
    do not overlap: the first [k] destination slots hold the first [k]
    source elements. *)
Definition after_prefix (src dst : address) (k : nat) (m : Machine Klass T)
  : Machine Klass T :=
  {| heap := {| klass := klass (heap m);
                slot := store_range (slot (heap m)) dst
                          (load_range (slot (heap m)) src k) |};
     current := current m;
     trace := trace m ++ checked_trace src dst k |}.

End Vocabulary.

(* ===================================================================== *)
(** * A concrete class hierarchy and heap                                 *)
(* ===================================================================== *)

Module Scenario.

Inductive JavaKlass :=
| java_lang_Object
| java_lang_String
| class_B
| Object_array
| String_array
| B_array.

Definition java_element_klass (k : JavaKlass) : JavaKlass :=
  match k with
  | Object_array => java_lang_Object
  | String_array => java_lang_String
  | B_array => class_B
  | other => other
  end.

Definition java_is_subtype_of (k super : JavaKlass) : bool :=
  match k, super with
  | _, java_lang_Object => true
  | java_lang_String, java_lang_String => true
  | class_B, class_B => true
  | Object_array, Object_array => true
  | String_array, String_array => true
  | String_array, Object_array => true
  | B_array, B_array => true
  | B_array, Object_array => true
  | _, _ => false
  end.

Definition java_external_name (k : JavaKlass) : string :=
  match k with
  | java_lang_Object => "java.lang.Object"
  | java_lang_String => "java.lang.String"
  | class_B => "B"
  | Object_array => "[Ljava.lang.Object;"
  | String_array => "[Ljava.lang.String;"
  | B_array => "[LB;"
  end.

Definition java_klasses : KlassOps JavaKlass :=
  {| element_klass := java_element_klass;
     is_subtype_of := java_is_subtype_of;
     external_name := java_external_name |}.

(** Uncompressed references: [T = oop], eight bytes wide. *)
Definition plain_oops : HeapOop oop :=
  {| heapOopSize := 8;
     is_null := fun elem => elem =? 0;
     decode := fun elem => elem;
     heapOopSize_pos := eq_refl;
     decode_null := fun elem E => proj1 (Z.eqb_eq elem 0) E |}.

(** Two distinct flag bits. *)
Definition flags : ArraycopyDecorators :=
  {| ARRAYCOPY_CHECKCAST := Z.shiftl 1 26;
     ARRAYCOPY_NOTNULL := Z.shiftl 1 27 |}.

Definition CHECKCAST_ONLY : DecoratorSet := Z.shiftl 1 26.
Definition NOTNULL_ONLY : DecoratorSet := Z.shiftl 1 27.
Definition CHECKCAST_AND_NOTNULL : DecoratorSet :=
  Z.lor (Z.shiftl 1 26) (Z.shiftl 1 27).
Definition UNCHECKED : DecoratorSet := 0.

(** Three arrays and three element objects.

    - an [Object[]] at 4096 holding a [String], a [B] and [null];
    - a [String[]] at 8192 holding [null], a [String] and [null];
    - a [B[]] at 12288 holding a [B].

    Element [0] of an array lies 16 bytes after the array's address. *)
Definition objects (obj : oop) : JavaKlass :=
  if obj =? 4096 then Object_array
  else if obj =? 8192 then String_array
  else if obj =? 12288 then B_array
  else if obj =? 512 then java_lang_String
  else if obj =? 640 then java_lang_String
  else if obj =? 768 then class_B
  else java_lang_Object.

Definition slots (p : address) : oop :=
  if p =? 4112 then 512
  else if p =? 4120 then 768
  else if p =? 8216 then 640
  else if p =? 12304 then 768
  else NULL.

Definition main_thread : Thread :=
  {| thread_id := 1; is_Java_thread := true; on_thread_list := false;
     pending_exception := None |}.

Definition machine : Machine JavaKlass oop :=
  {| heap := {| klass := objects; slot := slots |};
     current := main_thread;
     trace := [] |}.

Definition an_assembler : BarrierSetAssembler := {| assembler_id := 7 |}.

Definition a_barrier_set : BarrierSet :=
  {| kind := 3; _barrier_set_assembler := Some an_assembler |}.

Definition another_barrier_set : BarrierSet :=
  {| kind := 5; _barrier_set_assembler := None |}.

End Scenario.

(* ===================================================================== *)
(** * Element addresses, ranges and traces                                *)
(* ===================================================================== *)

Section RangeLemmas.
Context {T : Type} `{HeapOop T}.

Lemma element_address_0 (p : address) : element_address p 0 = p.
Proof. unfold element_address. simpl. lia. Qed.

Lemma element_address_S (p : address) (i : nat) :
  element_address p (S i) = element_address (p + heapOopSize) i.
Proof. unfold element_address. lia. Qed.

Lemma element_address_lt (p : address) (i : nat) :
  p < element_address p (S i).
Proof.
  unfold element_address. pose proof heapOopSize_pos as Hpos.
  induction i as [|i IH]; lia.
Qed.

Lemma element_address_mono (p : address) (i j : nat) :
  (i < j)%nat -> element_address p i < element_address p j.
Proof.
  intros Hij. induction Hij as [|j Hij IH].
  - rewrite element_address_S. unfold element_address.
    pose proof heapOopSize_pos. lia.
  - etransitivity; [exact IH|].
    unfold element_address. pose proof heapOopSize_pos. lia.
Qed.

Lemma element_address_le (p : address) (i j : nat) :
  (i <= j)%nat -> element_address p i <= element_address p j.
Proof.
  intros Hij. destruct (Nat.eq_dec i j) as [->|Hne]; [lia|].
  apply Z.lt_le_incl, element_address_mono. lia.
Qed.

Lemma update_same (f : address -> T) (p : address) (v : T) :
  update f p v p = v.
Proof. unfold update. now rewrite Z.eqb_refl. Qed.

Lemma update_other (f : address -> T) (p q : address) (v : T) :
  q <> p -> update f p v q = f q.
Proof. intros Hne. unfold update. now apply Z.eqb_neq in Hne as ->. Qed.

(** Writing a range leaves every slot outside it alone. *)
Lemma store_range_outside (elems : list T) :
  forall (f : address -> T) (p a : address),
    (forall i, (i < List.length elems)%nat -> a <> element_address p i) ->
    store_range f p elems a = f a.
Proof.
  induction elems as [|e rest IH]; intros f p a Hout; simpl; [reflexivity|].
  rewrite IH.
  - apply update_other. specialize (Hout 0%nat). rewrite element_address_0 in Hout.
    apply Hout. simpl. lia.
  - intros i Hi. rewrite <- element_address_S. apply Hout. simpl. lia.
Qed.

(** Writing a range puts the [i]-th element into the [i]-th slot. *)
Lemma store_range_inside (elems : list T) :
  forall (f : address -> T) (p : address) (i : nat) (v : T),
    nth_error elems i = Some v ->
    store_range f p elems (element_address p i) = v.
Proof.
  induction elems as [|e rest IH]; intros f p i v Hnth.
  - destruct i; discriminate.
  - destruct i as [|i]; simpl in *.
    + injection Hnth as ->. rewrite element_address_0.
      rewrite store_range_outside; [apply update_same|].
      intros i _. pose proof (element_address_lt p i) as Hlt.
      rewrite element_address_S in Hlt. lia.
    + rewrite element_address_S. now apply IH.
Qed.

Lemma load_range_length (f : address -> T) (n : nat) :
  forall p, List.length (load_range f p n) = n.
Proof. induction n as [|n IH]; intros p; simpl; [reflexivity|]. now rewrite IH. Qed.

Lemma load_range_nth (f : address -> T) (n : nat) :
  forall (p : address) (i : nat),
    (i < n)%nat ->
    nth_error (load_range f p n) i = Some (f (element_address p i)).
Proof.
  induction n as [|n IH]; intros p i Hi; [lia|].
  destruct i as [|i]; simpl.
  - now rewrite element_address_0.
  - rewrite element_address_S. apply IH. lia.
Qed.

(** Reading a range does not see a write outside it. *)
Lemma load_range_update (f : address -> T) (n : nat) :
  forall (p a : address) (v : T),
    (forall i, (i < n)%nat -> a <> element_address p i) ->
    load_range (update f a v) p n = load_range f p n.
Proof.
  induction n as [|n IH]; intros p a v Hout; simpl; [reflexivity|].
  f_equal.
  - apply update_other. specialize (Hout 0%nat). rewrite element_address_0 in Hout.
    intros ->. apply Hout; [lia|reflexivity].
  - apply IH. intros i Hi. rewrite <- element_address_S. apply Hout. lia.
Qed.

Lemma checked_trace_S (src dst : address) (k : nat) :
  checked_trace src dst (S k)
  = LoadElem src :: StoreElem dst
      :: checked_trace (src + heapOopSize) (dst + heapOopSize) k.
Proof.
  unfold checked_trace. simpl. rewrite !element_address_0. do 2 f_equal.
  rewrite <- seq_shift, flat_map_concat_map, map_map, <- flat_map_concat_map.
  apply flat_map_ext. intros i. now rewrite !element_address_S.
Qed.

Lemma disjoint_ranges_S (src dst : address) (n : nat) :
  disjoint_ranges src dst (S n) ->
  disjoint_ranges (src + heapOopSize) (dst + heapOopSize) n.
Proof.
  unfold disjoint_ranges. rewrite !element_address_S.
  pose proof heapOopSize_pos. lia.
Qed.

(** With disjoint ranges no source slot is a destination slot. *)
Lemma disjoint_ranges_neq (src dst : address) (n i j : nat) :
  disjoint_ranges src dst n -> (i < n)%nat -> (j < n)%nat ->
  element_address src i <> element_address dst j.
Proof.
  unfold disjoint_ranges. intros Hd Hi Hj.
  pose proof (element_address_mono src Hi).
  pose proof (element_address_mono dst Hj).
  pose proof (element_address_le src (Nat.le_0_l i)) as Hs.
  pose proof (element_address_le dst (Nat.le_0_l j)) as Hd0.
  rewrite element_address_0 in Hs, Hd0. lia.
Qed.
End RangeLemmas.

(* ===================================================================== *)
(** * The checked loop                                                    *)
(* ===================================================================== *)

Section LoopLemmas.
Context {Klass : Type} `{KlassOps Klass}.
Context {T : Type} `{HeapOop T}.
Context `{ArraycopyDecorators}.

Variable decorators : DecoratorSet.
Variables src_obj dst_obj : oop.
Variable dst_klass : Klass.

Lemma element_address_add (p : address) (i j : nat) :
  element_address (element_address p i) j = element_address p (i + j).
Proof. unfold element_address. lia. Qed.

(** One iteration of the loop while elements remain: the exit test
    [src < end] succeeds, the element is read and checked. *)
Lemma copy_loop_S (n : nat) (src dst : address) (m : Machine Klass T) :
  copy_loop decorators src_obj dst_obj dst_klass (S n)
            (element_address src (S n)) src dst m
  = match check_element decorators (heap m) src_obj dst_obj dst_klass
            (slot (heap m) src) with
    | Some e =>
        {| heap := heap m;
           current := set_pending_exception e (current m);
           trace := trace m ++ [LoadElem src] |}
    | None =>
        copy_loop decorators src_obj dst_obj dst_klass n
          (element_address (src + heapOopSize) n)
          (src + heapOopSize) (dst + heapOopSize)
          (store dst (slot (heap m) src) (snd (load src m)))
    end.
Proof.
  pose proof (element_address_lt src n) as Hlt.
  apply Z.ltb_lt in Hlt. simpl. rewrite Hlt.
  unfold check_element. simpl.
  destruct (HasDecorator decorators ARRAYCOPY_NOTNULL && is_null (slot (heap m) src));
    [reflexivity|].
  destruct (HasDecorator decorators ARRAYCOPY_CHECKCAST
            && negb (is_instanceof_or_null (heap m) (decode (slot (heap m) src))
                       dst_klass)).
  - reflexivity.
  - now rewrite element_address_S.
Qed.

(** The loop over [length] elements makes at most [length] iterations, so
    the fuel [length] never runs out before the exit test fails: with no
    element left the loop is at [src = end]. *)
Lemma copy_loop_exit (fuel : nat) (src dst : address) (m : Machine Klass T) :
  copy_loop decorators src_obj dst_obj dst_klass fuel src src dst m = m.
Proof. destruct fuel; simpl; [reflexivity|]. now rewrite Z.ltb_irrefl. Qed.

(** X12.  The loop ends within [n] iterations when [end] lies [n]
    elements after [src]: running it with more fuel than [n] gives the
    same machine, so the fuel [length] the copy passes never runs out
    before the exit test [src < end] fails. *)
Lemma copy_loop_fuel (n : nat) :
  forall (extra : nat) (src dst : address) (m : Machine Klass T),
    copy_loop decorators src_obj dst_obj dst_klass (n + extra)
      (element_address src n) src dst m
    = copy_loop decorators src_obj dst_obj dst_klass n
        (element_address src n) src dst m.
Proof.
  induction n as [|n IH]; intros extra src dst m.
  - rewrite element_address_0. simpl. apply copy_loop_exit.
  - pose proof (element_address_lt src n) as Hlt. apply Z.ltb_lt in Hlt.
    simpl. rewrite Hlt. simpl.
    destruct (HasDecorator decorators ARRAYCOPY_NOTNULL
              && is_null (slot (heap m) src)); [reflexivity|].
    destruct (HasDecorator decorators ARRAYCOPY_CHECKCAST
              && negb (is_instanceof_or_null (heap m)
                         (decode (slot (heap m) src)) dst_klass));
      [reflexivity|].
    rewrite element_address_S. apply IH.
Qed.

Lemma check_element_klass (h h' : Heap Klass T) (elem : T) :
  klass h' = klass h ->
  check_element decorators h' src_obj dst_obj dst_klass elem
  = check_element decorators h src_obj dst_obj dst_klass elem.
Proof.
  intros E. unfold check_element, is_instanceof_or_null. now rewrite E.
Qed.

(** What any run of the loop does, overlapping ranges included: it stores
    to the first [k] destination slots and to nothing else, and stops
    before [n] exactly when the element it reads at index [k] is refused. *)
Lemma copy_loop_outcome (n : nat) :
  forall (src dst : address) (m : Machine Klass T),
    let m' := copy_loop decorators src_obj dst_obj dst_klass n
                (element_address src n) src dst m in
    exists k : nat,
      (k <= n)%nat
      /\ klass (heap m') = klass (heap m)
      /\ (forall a, (forall i, (i < k)%nat -> a <> element_address dst i) ->
                    slot (heap m') a = slot (heap m) a)
      /\ ((k = n /\ current m' = current m
           /\ trace m' = trace m ++ checked_trace src dst n)
          \/ (k < n)%nat
             /\ trace m' = trace m ++ checked_trace src dst k
                             ++ [LoadElem (element_address src k)]
             /\ exists e,
                 check_element decorators (heap m) src_obj dst_obj dst_klass
                   (slot (heap m') (element_address src k)) = Some e
                 /\ current m' = set_pending_exception e (current m)).
Proof.
  induction n as [|n IH]; intros src dst m m'.
  - exists 0%nat. subst m'. simpl. repeat split; [lia|].
    left. repeat split. unfold checked_trace. simpl. now rewrite app_nil_r.
  - subst m'. rewrite copy_loop_S.
    destruct (check_element decorators (heap m) src_obj dst_obj dst_klass
                (slot (heap m) src)) as [e|] eqn:Hcheck.
    + exists 0%nat. simpl. repeat split; [lia|].
      right. rewrite element_address_0. repeat split; [lia|].
      exists e. now split.
    + destruct (IH (src + heapOopSize) (dst + heapOopSize)
                   (store dst (slot (heap m) src) (snd (load src m))))
        as (k & Hk & Hklass & Hframe & Hout).
      exists (S k). split; [lia|]. split; [exact Hklass|]. split.
      * intros a Ha. rewrite Hframe.
        -- simpl. apply update_other. specialize (Ha 0%nat).
           rewrite element_address_0 in Ha. apply Ha. lia.
        -- intros i Hi. rewrite <- element_address_S. apply Ha. lia.
      * destruct Hout as [(-> & Hcur & Htr) | (Hlt & Htr & e & He & Hcur)].
        -- left. repeat split; [exact Hcur|].
           rewrite Htr, checked_trace_S. simpl. now rewrite <- !app_assoc.
        -- right. split; [lia|]. split.
           ++ rewrite Htr, checked_trace_S, element_address_S. simpl.
              now rewrite <- !app_assoc.
           ++ exists e. rewrite element_address_S. split; [|exact Hcur].
              rewrite <- He. symmetry. now apply check_element_klass.
Qed.
End LoopLemmas.

Section DisjointCopy.
Context {Klass : Type} `{KlassOps Klass}.
Context {T : Type} `{HeapOop T}.
Context `{ArraycopyDecorators}.

Variable decorators : DecoratorSet.
Variables src_obj dst_obj : oop.
Variable dst_klass : Klass.

Lemma after_prefix_0 (src dst : address) (m : Machine Klass T) :
  after_prefix src dst 0 m = m.
Proof.
  destruct m as [[kl sl] cur tr]. unfold after_prefix, checked_trace. simpl.
  now rewrite app_nil_r.
Qed.

Lemma copy_loop_prefix (k : nat) :
  forall (rest : nat) (src dst : address) (m : Machine Klass T),
    disjoint_ranges src dst (k + rest) ->
    (forall i, (i < k)%nat ->
       check_element decorators (heap m) src_obj dst_obj dst_klass
         (element (heap m) src i) = None) ->
    copy_loop decorators src_obj dst_obj dst_klass (k + rest)
      (element_address src (k + rest)) src dst m
    = copy_loop decorators src_obj dst_obj dst_klass rest
        (element_address src (k + rest))
        (element_address src k) (element_address dst k)
        (after_prefix src dst k m).
Proof.
  induction k as [|k IH]; intros rest src dst m Hdisj Hpass.
  - now rewrite after_prefix_0, !element_address_0.
  - change (S k + rest)%nat with (S (k + rest)) in *.
    rewrite copy_loop_S.
    pose proof (Hpass 0%nat ltac:(lia)) as Hfirst.
    unfold element in Hfirst. rewrite element_address_0 in Hfirst.
    rewrite Hfirst.
    rewrite IH.
    + rewrite !element_address_S. f_equal.
      unfold after_prefix. simpl. f_equal.
      * f_equal. f_equal. apply load_range_update.
        intros i Hi. rewrite <- element_address_S.
        rewrite <- (element_address_0 dst) at 1.
        intros E. symmetry in E. revert E.
        apply (disjoint_ranges_neq (n := S (k + rest))); [exact Hdisj|lia|lia].
      * rewrite checked_trace_S. simpl. now rewrite <- !app_assoc.
    + now apply disjoint_ranges_S.
    + intros i Hi. unfold element. simpl.
      rewrite update_other.
      * rewrite <- element_address_S.
        rewrite <- (Hpass (S i) ltac:(lia)). now apply check_element_klass.
      * rewrite <- element_address_S. rewrite <- (element_address_0 dst) at 1.
        apply (disjoint_ranges_neq (n := S (k + rest))); [exact Hdisj|lia|lia].
Qed.

(** With disjoint ranges the source slots keep their values while the
    prefix is written. *)
Lemma after_prefix_source (src dst : address) (k n i : nat)
    (m : Machine Klass T) :
  disjoint_ranges src dst n -> (k <= n)%nat -> (i < n)%nat ->
  slot (heap (after_prefix src dst k m)) (element_address src i)
  = slot (heap m) (element_address src i).
Proof.
  intros Hdisj Hk Hi. simpl. apply store_range_outside.
  intros j Hj. rewrite load_range_length in Hj.
  apply (disjoint_ranges_neq (n := n)); [exact Hdisj|lia|lia].
Qed.

Lemma after_prefix_copied (src dst : address) (k i : nat)
    (m : Machine Klass T) :
  (i < k)%nat ->
  slot (heap (after_prefix src dst k m)) (element_address dst i)
  = slot (heap m) (element_address src i).
Proof.
  intros Hi. simpl. apply store_range_inside. now apply load_range_nth.
Qed.

Lemma after_prefix_untouched (src dst : address) (k i : nat)
    (m : Machine Klass T) :
  (k <= i)%nat ->
  slot (heap (after_prefix src dst k m)) (element_address dst i)
  = slot (heap m) (element_address dst i).
Proof.
  intros Hi. simpl. apply store_range_outside.
  intros j Hj. rewrite load_range_length in Hj.
  pose proof (@element_address_mono T _ dst j i ltac:(lia)). lia.
Qed.

(** All [n] elements pass: the loop ends in [after_prefix _ _ n]. *)
Lemma copy_loop_all (n : nat) (src dst : address) (m : Machine Klass T) :
  disjoint_ranges src dst n ->
  (forall i, (i < n)%nat ->
     check_element decorators (heap m) src_obj dst_obj dst_klass
       (element (heap m) src i) = None) ->
  copy_loop decorators src_obj dst_obj dst_klass n
    (element_address src n) src dst m
  = after_prefix src dst n m.
Proof.
  intros Hdisj Hpass.
  pose proof (@copy_loop_prefix n 0%nat src dst m) as Hp.
  rewrite Nat.add_0_r in Hp. rewrite Hp; [|exact Hdisj|exact Hpass].
  reflexivity.
Qed.

(** The first [k] elements pass and element [k] is refused with [e]: the
    loop stops in [after_prefix _ _ k] with [e] pending. *)
Lemma copy_loop_first_refused (n k : nat) (src dst : address)
    (m : Machine Klass T) (e : Exception) :
  disjoint_ranges src dst n -> (k < n)%nat ->
  (forall i, (i < k)%nat ->
     check_element decorators (heap m) src_obj dst_obj dst_klass
       (element (heap m) src i) = None) ->
  check_element decorators (heap m) src_obj dst_obj dst_klass
    (element (heap m) src k) = Some e ->
  copy_loop decorators src_obj dst_obj dst_klass n
    (element_address src n) src dst m
  = {| heap := heap (after_prefix src dst k m);
       current := set_pending_exception e (current m);
       trace := trace m ++ checked_trace src dst k
                  ++ [LoadElem (element_address src k)] |}.
Proof.
  intros Hdisj Hk Hpass Hfail.
  replace n with (k + S (n - S k))%nat in * by lia.
  rewrite copy_loop_prefix; [|exact Hdisj|exact Hpass].
  rewrite <- element_address_add, copy_loop_S.
  rewrite (@after_prefix_source src dst k (k + S (n - S k)) k m Hdisj);
    [|lia|lia].
  rewrite (@check_element_klass _ _ _ _ _ decorators src_obj dst_obj dst_klass
             (heap m) (heap (after_prefix src dst k m))); [|reflexivity].
  unfold element in Hfail. rewrite Hfail. simpl. now rewrite <- app_assoc.
Qed.
End DisjointCopy.

(* ===================================================================== *)
(** * The checked loop on overlapping ranges                              *)
(* ===================================================================== *)

Section ForwardCopy.
Context {Klass : Type} `{KlassOps Klass}.
Context {T : Type} `{HeapOop T}.
Context `{ArraycopyDecorators}.

Variable decorators : DecoratorSet.
Variables src_obj dst_obj : oop.
Variable dst_klass : Klass.

(** A destination that starts at or before the source, or ranges that do
    not overlap: no source slot is a destination slot of a smaller index,
    so the forward loop never reads a slot it has written. *)
Lemma forward_reads_fresh (src dst : address) (n i j : nat) :
  dst <= src \/ disjoint_ranges src dst n ->
  (j < i)%nat -> (i < n)%nat ->
  element_address src i <> element_address dst j.
Proof.
  intros [Hle | Hdisj] Hji Hin.
  - pose proof (element_address_mono dst Hji) as Hlt.
    unfold element_address in *. lia.
  - apply (disjoint_ranges_neq (n := n)); [exact Hdisj|lia|lia].
Qed.

Lemma copy_loop_prefix_forward (k : nat) :
  forall (rest : nat) (src dst : address) (m : Machine Klass T),
    (forall i j, (j < i)%nat -> (i < k + rest)%nat ->
       element_address src i <> element_address dst j) ->
    (forall i, (i < k)%nat ->
       check_element decorators (heap m) src_obj dst_obj dst_klass
         (element (heap m) src i) = None) ->
    copy_loop decorators src_obj dst_obj dst_klass (k + rest)
      (element_address src (k + rest)) src dst m
    = copy_loop decorators src_obj dst_obj dst_klass rest
        (element_address src (k + rest))
        (element_address src k) (element_address dst k)
        (after_prefix src dst k m).
Proof.
  induction k as [|k IH]; intros rest src dst m Hfresh Hpass.
  - now rewrite after_prefix_0, !element_address_0.
  - change (S k + rest)%nat with (S (k + rest)) in *.
    rewrite copy_loop_S.
    pose proof (Hpass 0%nat ltac:(lia)) as Hfirst.
    unfold element in Hfirst. rewrite element_address_0 in Hfirst.
    rewrite Hfirst.
    assert (Hdst : forall i, (i < k + rest)%nat ->
                     dst <> element_address (src + heapOopSize) i).
    { intros i Hi E. rewrite <- element_address_S in E.
      rewrite <- (element_address_0 dst) in E at 1.
      symmetry in E. revert E. apply Hfresh; lia. }
    rewrite IH.
    + rewrite !element_address_S. f_equal.
      unfold after_prefix. simpl. f_equal.
      * f_equal. f_equal. apply load_range_update.
        intros i Hi. apply Hdst. lia.
      * rewrite checked_trace_S. simpl. now rewrite <- !app_assoc.
    + intros i j Hji Hi. rewrite <- !element_address_S. apply Hfresh; lia.
    + intros i Hi. unfold element. simpl.
      rewrite update_other.
      * rewrite <- element_address_S.
        rewrite <- (Hpass (S i) ltac:(lia)). now apply check_element_klass.
      * intros E. apply (Hdst i); [lia|now symmetry].
Qed.

Lemma after_prefix_next (src dst : address) (k : nat) (m : Machine Klass T) :
  (forall j, (j < k)%nat -> element_address src k <> element_address dst j) ->
  slot (heap (after_prefix src dst k m)) (element_address src k)
  = slot (heap m) (element_address src k).
Proof.
  intros Hfresh. simpl. apply store_range_outside.
  intros j Hj. rewrite load_range_length in Hj. now apply Hfresh.
Qed.

Lemma copy_loop_all_forward (n : nat) (src dst : address) (m : Machine Klass T) :
  dst <= src \/ disjoint_ranges src dst n ->
  (forall i, (i < n)%nat ->
     check_element decorators (heap m) src_obj dst_obj dst_klass
       (element (heap m) src i) = None) ->
  copy_loop decorators src_obj dst_obj dst_klass n
    (element_address src n) src dst m
  = after_prefix src dst n m.
Proof.
  intros Hsafe Hpass.
  pose proof (@copy_loop_prefix_forward n 0%nat src dst m) as Hp.
  rewrite Nat.add_0_r in Hp. rewrite Hp; [reflexivity| |exact Hpass].
  intros i j Hji Hi. now apply (forward_reads_fresh (n := n)).
Qed.

Lemma copy_loop_first_refused_forward (n k : nat) (src dst : address)
    (m : Machine Klass T) (e : Exception) :
  dst <= src \/ disjoint_ranges src dst n -> (k < n)%nat ->
  (forall i, (i < k)%nat ->
     check_element decorators (heap m) src_obj dst_obj dst_klass
       (element (heap m) src i) = None) ->
  check_element decorators (heap m) src_obj dst_obj dst_klass
    (element (heap m) src k) = Some e ->
  copy_loop decorators src_obj dst_obj dst_klass n
    (element_address src n) src dst m
  = {| heap := heap (after_prefix src dst k m);
       current := set_pending_exception e (current m);
       trace := trace m ++ checked_trace src dst k
                  ++ [LoadElem (element_address src k)] |}.
Proof.
  intros Hsafe Hk Hpass Hfail.
  assert (Hfresh : forall i j, (j < i)%nat -> (i < n)%nat ->
                     element_address src i <> element_address dst j)
    by (intros i j; apply forward_reads_fresh; exact Hsafe).
  replace n with (k + S (n - S k))%nat in * by lia.
  rewrite copy_loop_prefix_forward; [|exact Hfresh|exact Hpass].
  rewrite <- element_address_add, copy_loop_S.
  rewrite after_prefix_next by (intros j Hj; apply Hfresh; lia).
  rewrite (@check_element_klass _ _ _ _ _ decorators src_obj dst_obj dst_klass
             (heap m) (heap (after_prefix src dst k m))); [|reflexivity].
  unfold element in Hfail. rewrite Hfail. simpl. now rewrite <- app_assoc.
Qed.

(** The elements of a range either all pass the two tests, or there is a
    first one that is refused. *)
Lemma first_refused_or_none (h : Heap Klass T) (src : address) (n : nat) :
  (forall i, (i < n)%nat ->
     check_element decorators h src_obj dst_obj dst_klass (element h src i) = None)
  \/ exists k e,
       (k < n)%nat
       /\ (forall i, (i < k)%nat ->
             check_element decorators h src_obj dst_obj dst_klass
               (element h src i) = None)
       /\ check_element decorators h src_obj dst_obj dst_klass
            (element h src k) = Some e.
Proof.
  induction n as [|n IH].
  - left. intros i Hi. lia.
  - destruct IH as [Hall | (k & e & Hk & Hpass & Hfail)].
    + destruct (check_element decorators h src_obj dst_obj dst_klass
                  (element h src n)) as [e|] eqn:Hn.
      * right. exists n, e. repeat split; [lia|exact Hall|exact Hn].
      * left. intros i Hi. destruct (Nat.eq_dec i n) as [->|Hne];
          [exact Hn|apply Hall; lia].
    + right. exists k, e. repeat split; [lia|exact Hpass|exact Hfail].
Qed.

(** An address is a slot of a range or it is none of them. *)
Lemma in_range_or_not (p a : address) (k : nat) :
  (exists i, (i < k)%nat /\ a = element_address p i)
  \/ (forall i, (i < k)%nat -> a <> element_address p i).
Proof.
  induction k as [|k IH].
  - right. intros i Hi. lia.
  - destruct IH as [(i & Hi & E) | Hout].
    + left. exists i. split; [lia|exact E].
    + destruct (Z.eq_dec a (element_address p k)) as [E|Hne].
      * left. exists k. split; [lia|exact E].
      * right. intros i Hi. destruct (Nat.eq_dec i k) as [->|Hik];
          [exact Hne|apply Hout; lia].
Qed.
End ForwardCopy.

(* ===================================================================== *)
(** * The copy as a whole                                                 *)
(* ===================================================================== *)

Section WholeCopy.
Context {Klass : Type} `{KlassOps Klass}.
Context {T : Type} `{HeapOop T}.
Context `{ArraycopyDecorators}.

Variable decorators : DecoratorSet.
Variables src_obj dst_obj : oop.
Variables src_offset_in_bytes dst_offset_in_bytes : Z.
Variables src_raw dst_raw : address.

Lemma fast_path (n : nat) (m : Machine Klass T) :
  HasDecorator decorators ARRAYCOPY_CHECKCAST = false ->
  HasDecorator decorators ARRAYCOPY_NOTNULL = false ->
  oop_arraycopy_in_heap decorators src_obj src_offset_in_bytes src_raw
    dst_obj dst_offset_in_bytes dst_raw n m
  = Raw_oop_arraycopy NULL 0
      (obj_offset_to_raw src_obj src_offset_in_bytes src_raw) NULL 0
      (obj_offset_to_raw dst_obj dst_offset_in_bytes dst_raw) n m.
Proof. intros Hc Hn. unfold oop_arraycopy_in_heap. now rewrite Hc, Hn. Qed.

Lemma checked_path (n : nat) (m : Machine Klass T) :
  HasDecorator decorators ARRAYCOPY_CHECKCAST
  || HasDecorator decorators ARRAYCOPY_NOTNULL = true ->
  oop_arraycopy_in_heap decorators src_obj src_offset_in_bytes src_raw
    dst_obj dst_offset_in_bytes dst_raw n m
  = copy_loop decorators src_obj dst_obj
      (objArrayOop_element_klass (heap m) dst_obj) n
      (element_address (obj_offset_to_raw src_obj src_offset_in_bytes src_raw) n)
      (obj_offset_to_raw src_obj src_offset_in_bytes src_raw)
      (obj_offset_to_raw dst_obj dst_offset_in_bytes dst_raw) m.
Proof.
  intros Hor. unfold oop_arraycopy_in_heap.
  destruct (HasDecorator decorators ARRAYCOPY_CHECKCAST),
           (HasDecorator decorators ARRAYCOPY_NOTNULL);
    try discriminate; reflexivity.
Qed.

Lemma check_element_None (h : Heap Klass T) (dst_klass : Klass) (elem : T) :
  null_refused decorators elem = false ->
  cast_refused decorators h dst_klass elem = false ->
  check_element decorators h src_obj dst_obj dst_klass elem = None.
Proof.
  unfold null_refused, cast_refused, check_element. now intros -> ->.
Qed.

Lemma check_element_null (h : Heap Klass T) (dst_klass : Klass) (elem : T) :
  null_refused decorators elem = true ->
  check_element decorators h src_obj dst_obj dst_klass elem
  = Some (mkException java_lang_NullPointerException
            (null_pointer_store_message (element_klass (klass h dst_obj)))).
Proof. unfold null_refused, check_element. now intros ->. Qed.

Lemma check_element_cast (h : Heap Klass T) (dst_klass : Klass) (elem : T) :
  null_refused decorators elem = false ->
  cast_refused decorators h dst_klass elem = true ->
  check_element decorators h src_obj dst_obj dst_klass elem
  = Some (mkException java_lang_ArrayStoreException
            (array_store_message (element_klass (klass h src_obj))
                                 (element_klass (klass h dst_obj)))).
Proof. unfold null_refused, cast_refused, check_element. now intros -> ->. Qed.

(** A refusal is one of the two exceptions, and tells which test failed. *)
Lemma check_element_Some (h : Heap Klass T) (dst_klass : Klass) (elem : T)
    (e : Exception) :
  check_element decorators h src_obj dst_obj dst_klass elem = Some e ->
  (null_refused decorators elem = true
   /\ e = mkException java_lang_NullPointerException
            (null_pointer_store_message (element_klass (klass h dst_obj))))
  \/ (null_refused decorators elem = false
      /\ cast_refused decorators h dst_klass elem = true
      /\ e = mkException java_lang_ArrayStoreException
               (array_store_message (element_klass (klass h src_obj))
                                    (element_klass (klass h dst_obj)))).
Proof.
  unfold null_refused, cast_refused, check_element.
  destruct (HasDecorator decorators ARRAYCOPY_NOTNULL && is_null elem).
  - intros [= <-]. now left.
  - destruct (HasDecorator decorators ARRAYCOPY_CHECKCAST
              && negb (is_instanceof_or_null h (decode elem) dst_klass)).
    + intros [= <-]. now right.
    + discriminate.
Qed.

Lemma mentions_middle (before sub after : string) :
  mentions sub (before ++ sub ++ after)%string.
Proof. now exists before, after. Qed.

Lemma append_assoc (a b c : string) :
  ((a ++ b) ++ c = a ++ (b ++ c))%string.
Proof. induction a as [|ch a IH]; simpl; [reflexivity|]. now rewrite IH. Qed.

Lemma append_nil_r (a : string) : (a ++ "" = a)%string.
Proof. induction a as [|ch a IH]; simpl; [reflexivity|]. now rewrite IH. Qed.

Lemma mentions_end (before sub : string) :
  mentions sub (before ++ sub)%string.
Proof. exists before, ""%string. now rewrite append_nil_r. Qed.

Lemma addresses_element (n : nat) :
  forall (p : address) (start : nat),
    addresses heapOopSize (element_address p start) n
    = map (element_address p) (seq start n).
Proof.
  induction n as [|n IH]; intros p start; simpl; [reflexivity|].
  f_equal. rewrite <- IH. f_equal. unfold element_address. lia.
Qed.

Lemma reads_checked_trace (src dst : address) (k : nat) :
  flat_map (elements_read heapOopSize) (checked_trace src dst k)
  = map (element_address src) (seq 0 k).
Proof.
  unfold checked_trace. induction (seq 0 k) as [|i l IH]; simpl; [reflexivity|].
  now rewrite IH.
Qed.

Lemma writes_checked_trace (src dst : address) (k : nat) :
  flat_map (elements_written heapOopSize) (checked_trace src dst k)
  = map (element_address dst) (seq 0 k).
Proof.
  unfold checked_trace. induction (seq 0 k) as [|i l IH]; simpl; [reflexivity|].
  now rewrite IH.
Qed.

Lemma element_addresses_sorted (p : address) (k : nat) :
  forall start, StronglySorted Z.lt (map (element_address p) (seq start k)).
Proof.
  induction k as [|k IH]; intros start; simpl; constructor.
  - apply IH.
  - apply Forall_forall. intros a Ha. apply in_map_iff in Ha as (j & <- & Hj).
    apply in_seq in Hj. apply element_address_mono. lia.
Qed.
End WholeCopy.

(* ===================================================================== *)
(** * Properties of the array copy                                        *)
(* ===================================================================== *)

Section ArrayCopyProperties.
Context {Klass : Type} `{KlassOps Klass}.
Context {T : Type} `{HeapOop T}.
Context `{ArraycopyDecorators}.

(** C3.  With neither the cast-check nor the nulls-forbidden decorator, for
    every length and every contents (null elements included, overlapping
    ranges included), the copy is exactly one call of the raw-copy
    primitive on the resolved addresses: no element is read or tested by
    the checker, every destination element [i < n] ends up equal to the
    source element [i] of the heap on entry, and the thread's pending
    exception is left as it was. *)
Theorem unchecked_arraycopy_is_raw_copy
    (decorators : DecoratorSet)
    (src_obj : oop) (src_offset_in_bytes : Z) (src_raw : address)
    (dst_obj : oop) (dst_offset_in_bytes : Z) (dst_raw : address)
    (n : nat) (m : Machine Klass T) :
  HasDecorator decorators ARRAYCOPY_CHECKCAST = false ->
  HasDecorator decorators ARRAYCOPY_NOTNULL = false ->
  let src := obj_offset_to_raw src_obj src_offset_in_bytes src_raw in
  let dst := obj_offset_to_raw dst_obj dst_offset_in_bytes dst_raw in
  let m' := oop_arraycopy_in_heap decorators src_obj src_offset_in_bytes src_raw
              dst_obj dst_offset_in_bytes dst_raw n m in
  m' = Raw_oop_arraycopy NULL 0 src NULL 0 dst n m
  /\ trace m' = trace m ++ [RawCopy src dst n]
  /\ (forall i, (i < n)%nat -> element (heap m') dst i = element (heap m) src i)
  /\ current m' = current m.
Proof.
  intros Hc Hn src dst m'. subst m'. rewrite fast_path by assumption.
  fold src dst. repeat split.
  intros i Hi. unfold element. simpl.
  apply store_range_inside. now apply load_range_nth.
Qed.

(** C6.  For every decorator set, a copy of length [0] leaves the heap and
    the thread (so its pending exception) as they were, and the accesses it
    adds to the trace read no element slot and write no element slot. *)
Theorem empty_arraycopy_touches_nothing
    (decorators : DecoratorSet)
    (src_obj : oop) (src_offset_in_bytes : Z) (src_raw : address)
    (dst_obj : oop) (dst_offset_in_bytes : Z) (dst_raw : address)
    (m : Machine Klass T) :
  let m' := oop_arraycopy_in_heap decorators src_obj src_offset_in_bytes src_raw
              dst_obj dst_offset_in_bytes dst_raw 0 m in
  heap m' = heap m
  /\ current m' = current m
  /\ exists added,
       trace m' = trace m ++ added
       /\ flat_map (elements_read heapOopSize) added = []
       /\ flat_map (elements_written heapOopSize) added = [].
Proof.
  intros m'. subst m'. unfold oop_arraycopy_in_heap.
  destruct (negb (HasDecorator decorators ARRAYCOPY_CHECKCAST)
            && negb (HasDecorator decorators ARRAYCOPY_NOTNULL)).
  - destruct m as [[kl sl] cur tr]. simpl. repeat split.
    eexists. repeat split.
  - simpl. repeat split. exists []. now rewrite app_nil_r.
Qed.

(** C4.  [throw_array_store_exception] leaves an [ArrayStoreException]
    pending whose message is chosen by one subtype test: the whole-array
    text when the destination's element type is not a subtype of the
    source array's element type, the single-element text otherwise; either
    text contains the external names of both element types.  Whenever the
    array copy changes the thread, it has raised either the null-store
    exception or exactly this one. *)
Theorem array_store_exception_message
    (src_obj dst_obj : oop) (m : Machine Klass T) :
  let bound := element_klass (klass (heap m) dst_obj) in
  let stype := element_klass (klass (heap m) src_obj) in
  let message :=
    if is_subtype_of bound stype then
      ("arraycopy: element type mismatch: can not cast one of the elements of "
         ++ external_name stype
         ++ "[] to the type of the destination array, "
         ++ external_name bound)%string
    else
      ("arraycopy: type mismatch: can not copy "
         ++ external_name stype ++ "[] into " ++ external_name bound ++ "[]")%string
  in
  throw_array_store_exception src_obj dst_obj m
  = {| heap := heap m;
       current := set_pending_exception
                    (mkException java_lang_ArrayStoreException message)
                    (current m);
       trace := trace m |}
  /\ mentions (external_name stype) message
  /\ mentions (external_name bound) message
  /\ forall decorators src_offset_in_bytes src_raw dst_offset_in_bytes dst_raw n,
       let m' := oop_arraycopy_in_heap decorators
                   src_obj src_offset_in_bytes src_raw
                   dst_obj dst_offset_in_bytes dst_raw n m in
       current m' = current m
       \/ current m'
          = current (throw_array_null_pointer_store_exception src_obj dst_obj m)
       \/ current m' = current (throw_array_store_exception src_obj dst_obj m).
Proof.
  intros bound stype message. split; [|split; [|split]].
  - unfold throw_array_store_exception, THROW_MSG, array_store_message.
    fold bound stype. subst message.
    destruct (is_subtype_of bound stype); reflexivity.
  - subst message. destruct (is_subtype_of bound stype).
    + apply mentions_middle.
    + apply mentions_middle.
  - subst message. destruct (is_subtype_of bound stype).
    + eexists _, ""%string. rewrite append_nil_r, <- !append_assoc. reflexivity.
    + eexists _, "[]"%string. rewrite <- !append_assoc. reflexivity.
  - intros decorators src_offset_in_bytes src_raw dst_offset_in_bytes dst_raw n m'.
    subst m'. unfold oop_arraycopy_in_heap.
    destruct (negb (HasDecorator decorators ARRAYCOPY_CHECKCAST)
              && negb (HasDecorator decorators ARRAYCOPY_NOTNULL)).
    + now left.
    + destruct (copy_loop_outcome decorators src_obj dst_obj
                  (objArrayOop_element_klass (heap m) dst_obj) n
                  (obj_offset_to_raw src_obj src_offset_in_bytes src_raw)
                  (obj_offset_to_raw dst_obj dst_offset_in_bytes dst_raw) m)
        as (k & _ & _ & _ & [(_ & Hcur & _) | (_ & _ & e & He & Hcur)]).
      * now left.
      * right. unfold element_address in *. rewrite Hcur.
        apply check_element_Some in He as [(_ & ->) | (_ & _ & ->)].
        -- now left.
        -- now right.
Qed.

(** C1.  With the cast-check decorator set (and the nulls-forbidden
    decorator not set), whenever the destination range does not start
    inside the source range (it starts at or before the source, or the two
    ranges do not overlap): if every one of the [n] source elements is
    assignable to the destination's declared element type, all [n]
    elements are copied and the pending exception is left as it was; if
    the first element that is not assignable sits at index [k < n],
    destination indices [0,k) hold the corresponding source elements,
    destination indices [k,n) are unchanged, and the exception of
    [throw_array_store_exception] is pending.  The accesses are: read [0],
    store [0], read [1], store [1], ..., in strictly increasing index
    order, ending with the read of the refused element. *)
Theorem checkcast_arraycopy_partial_copy
    (decorators : DecoratorSet)
    (src_obj : oop) (src_offset_in_bytes : Z) (src_raw : address)
    (dst_obj : oop) (dst_offset_in_bytes : Z) (dst_raw : address)
    (n : nat) (m : Machine Klass T) :
  let src := obj_offset_to_raw src_obj src_offset_in_bytes src_raw in
  let dst := obj_offset_to_raw dst_obj dst_offset_in_bytes dst_raw in
  let dst_klass := objArrayOop_element_klass (heap m) dst_obj in
  let m' := oop_arraycopy_in_heap decorators src_obj src_offset_in_bytes src_raw
              dst_obj dst_offset_in_bytes dst_raw n m in
  HasDecorator decorators ARRAYCOPY_CHECKCAST = true ->
  HasDecorator decorators ARRAYCOPY_NOTNULL = false ->
  dst <= src \/ disjoint_ranges src dst n ->
  ((forall i, (i < n)%nat ->
      assignable (heap m) dst_klass (element (heap m) src i)) ->
   (forall i, (i < n)%nat -> element (heap m') dst i = element (heap m) src i)
   /\ current m' = current m
   /\ trace m' = trace m ++ checked_trace src dst n)
  /\
  (forall k, (k < n)%nat ->
   (forall i, (i < k)%nat ->
      assignable (heap m) dst_klass (element (heap m) src i)) ->
   ~ assignable (heap m) dst_klass (element (heap m) src k) ->
   (forall i, (i < k)%nat -> element (heap m') dst i = element (heap m) src i)
   /\ (forall i, (k <= i < n)%nat ->
         element (heap m') dst i = element (heap m) dst i)
   /\ current m' = current (throw_array_store_exception src_obj dst_obj m)
   /\ (exists message,
         pending_exception (current m')
         = Some (mkException java_lang_ArrayStoreException message))
   /\ trace m' = trace m ++ checked_trace src dst k
                   ++ [LoadElem (element_address src k)]
   /\ StronglySorted Z.lt
        (flat_map (elements_read heapOopSize)
           (checked_trace src dst k ++ [LoadElem (element_address src k)]))
   /\ StronglySorted Z.lt
        (flat_map (elements_written heapOopSize)
           (checked_trace src dst k ++ [LoadElem (element_address src k)]))).
Proof.
  intros src dst dst_klass m' Hcc Hnn Hsafe.
  assert (Hpath : m' = copy_loop decorators src_obj dst_obj dst_klass n
                         (element_address src n) src dst m).
  { subst m'. apply checked_path. now rewrite Hcc. }
  assert (Hnull : forall e, null_refused decorators e = false).
  { intros e. unfold null_refused. now rewrite Hnn. }
  assert (Hpass : forall e,
             assignable (heap m) dst_klass e ->
             check_element decorators (heap m) src_obj dst_obj dst_klass e = None).
  { intros e Hok. apply check_element_None; [apply Hnull|].
    unfold cast_refused. unfold assignable in Hok. rewrite Hok.
    apply andb_false_r. }
  split.
  - intros Hok. rewrite Hpath.
    rewrite copy_loop_all_forward;
      [|exact Hsafe|now intros i Hi; apply Hpass; auto].
    repeat split. intros i Hi. now apply after_prefix_copied.
  - intros k Hk Hok Hbad. rewrite Hpath.
    rewrite (@copy_loop_first_refused_forward _ _ _ _ _ decorators
               src_obj dst_obj dst_klass n k src dst m
               (mkException java_lang_ArrayStoreException
                  (array_store_message (element_klass (klass (heap m) src_obj))
                                       (element_klass (klass (heap m) dst_obj)))));
      [|exact Hsafe|exact Hk| |].
    + split; [|split; [|split; [|split; [|split; [|split]]]]].
      * intros i Hi. now apply after_prefix_copied.
      * intros i Hi. apply after_prefix_untouched. lia.
      * reflexivity.
      * eexists. reflexivity.
      * reflexivity.
      * rewrite flat_map_app, reads_checked_trace. simpl.
        change [element_address src k]
          with (map (element_address src) [k]).
        rewrite <- map_app, <- seq_S. apply element_addresses_sorted.
      * rewrite flat_map_app, writes_checked_trace. simpl. rewrite app_nil_r.
        apply element_addresses_sorted.
    + intros i Hi. apply Hpass. now apply Hok.
    + unfold assignable in Hbad.
      apply check_element_cast; [apply Hnull|].
      unfold cast_refused. rewrite Hcc. simpl.
      now destruct (is_instanceof_or_null _ _ _).
Qed.

(** C2.  With the nulls-forbidden decorator set (and the cast-check
    decorator not set), whenever the destination range does not start
    inside the source range (it starts at or before the source, or the two
    ranges do not overlap): if none of the [n] source elements is null,
    the copy leaves the heap and the thread exactly as the unchecked raw
    copy does; if the first null element sits at index [k < n],
    destination indices [0,k) hold the corresponding source elements,
    destination indices [k,n) are unchanged, and a [NullPointerException]
    is pending whose message contains the external name of the
    destination's declared element type. *)
Theorem notnull_arraycopy_partial_copy
    (decorators : DecoratorSet)
    (src_obj : oop) (src_offset_in_bytes : Z) (src_raw : address)
    (dst_obj : oop) (dst_offset_in_bytes : Z) (dst_raw : address)
    (n : nat) (m : Machine Klass T) :
  let src := obj_offset_to_raw src_obj src_offset_in_bytes src_raw in
  let dst := obj_offset_to_raw dst_obj dst_offset_in_bytes dst_raw in
  let dst_klass := objArrayOop_element_klass (heap m) dst_obj in
  let m' := oop_arraycopy_in_heap decorators src_obj src_offset_in_bytes src_raw
              dst_obj dst_offset_in_bytes dst_raw n m in
  let unchecked := Raw_oop_arraycopy NULL 0 src NULL 0 dst n m in
  HasDecorator decorators ARRAYCOPY_NOTNULL = true ->
  HasDecorator decorators ARRAYCOPY_CHECKCAST = false ->
  dst <= src \/ disjoint_ranges src dst n ->
  ((forall i, (i < n)%nat -> is_null (element (heap m) src i) = false) ->
   heap m' = heap unchecked /\ current m' = current unchecked)
  /\
  (forall k, (k < n)%nat ->
   (forall i, (i < k)%nat -> is_null (element (heap m) src i) = false) ->
   is_null (element (heap m) src k) = true ->
   (forall i, (i < k)%nat -> element (heap m') dst i = element (heap m) src i)
   /\ (forall i, (k <= i < n)%nat ->
         element (heap m') dst i = element (heap m) dst i)
   /\ current m'
      = current (throw_array_null_pointer_store_exception src_obj dst_obj m)
   /\ exists message,
        pending_exception (current m')
        = Some (mkException java_lang_NullPointerException message)
        /\ mentions (external_name dst_klass) message).
Proof.
  intros src dst dst_klass m' unchecked Hnn Hcc Hsafe.
  assert (Hpath : m' = copy_loop decorators src_obj dst_obj dst_klass n
                         (element_address src n) src dst m).
  { subst m'. apply checked_path. rewrite Hnn. apply orb_true_r. }
  assert (Hpass : forall e,
             is_null e = false ->
             check_element decorators (heap m) src_obj dst_obj dst_klass e = None).
  { intros e Hnull. apply check_element_None.
    - unfold null_refused. rewrite Hnull. apply andb_false_r.
    - unfold cast_refused. now rewrite Hcc. }
  split.
  - intros Hnull. rewrite Hpath.
    rewrite copy_loop_all_forward;
      [|exact Hsafe|now intros i Hi; apply Hpass; auto].
    subst unchecked. split; reflexivity.
  - intros k Hk Hnull Hbad. rewrite Hpath.
    rewrite (@copy_loop_first_refused_forward _ _ _ _ _ decorators
               src_obj dst_obj dst_klass n k src dst m
               (mkException java_lang_NullPointerException
                  (null_pointer_store_message
                     (element_klass (klass (heap m) dst_obj)))));
      [|exact Hsafe|exact Hk| |].
    + split; [|split; [|split]].
      * intros i Hi. now apply after_prefix_copied.
      * intros i Hi. apply after_prefix_untouched. lia.
      * reflexivity.
      * eexists. split; [reflexivity|].
        unfold null_pointer_store_message. apply mentions_middle.
    + intros i Hi. apply Hpass. now apply Hnull.
    + apply check_element_null. unfold null_refused. now rewrite Hnn, Hbad.
Qed.

(** C5.  With the cast-check decorator set and the nulls-forbidden
    decorator not set, an iteration of the loop that reads a null element
    raises nothing: it stores the element at the destination pointer and
    goes on with the next index, and when the loop is over the destination
    slot still holds that null.  Hence whenever the whole copy stops early,
    at some index [k < n], the element it has just read there is not null,
    and the exception is the one of [throw_array_store_exception].  And
    when the destination range does not start inside the source range, a
    null source element at an index [k] that the copy reaches (every
    element before it is assignable) ends up in the destination slot of
    index [k], with the accesses of indices [0 .. k] made in full. *)
Theorem checkcast_stores_null_elements
    (decorators : DecoratorSet) (src_obj dst_obj : oop) :
  HasDecorator decorators ARRAYCOPY_CHECKCAST = true ->
  HasDecorator decorators ARRAYCOPY_NOTNULL = false ->
  (forall (dst_klass : Klass) (n : nat) (src dst : address) (m : Machine Klass T),
     is_null (slot (heap m) src) = true ->
     let after := copy_loop decorators src_obj dst_obj dst_klass (S n)
                    (element_address src (S n)) src dst m in
     after = copy_loop decorators src_obj dst_obj dst_klass n
               (element_address src (S n)) (src + heapOopSize) (dst + heapOopSize)
               (store dst (slot (heap m) src) (snd (load src m)))
     /\ slot (heap after) dst = slot (heap m) src
     /\ is_null (slot (heap after) dst) = true
     /\ exists rest,
          trace after = trace m ++ [LoadElem src; StoreElem dst] ++ rest)
  /\
  (forall src_offset_in_bytes src_raw dst_offset_in_bytes dst_raw n
          (m : Machine Klass T),
     let src := obj_offset_to_raw src_obj src_offset_in_bytes src_raw in
     let m' := oop_arraycopy_in_heap decorators
                 src_obj src_offset_in_bytes src_raw
                 dst_obj dst_offset_in_bytes dst_raw n m in
     (current m' = current m
      /\ trace m' = trace m
                    ++ checked_trace src
                         (obj_offset_to_raw dst_obj dst_offset_in_bytes dst_raw) n)
     \/ exists k,
          (k < n)%nat
          /\ is_null (element (heap m') src k) = false
          /\ current m'
             = current (throw_array_store_exception src_obj dst_obj m))
  /\
  (forall src_offset_in_bytes src_raw dst_offset_in_bytes dst_raw n
          (m : Machine Klass T) (k : nat),
     let src := obj_offset_to_raw src_obj src_offset_in_bytes src_raw in
     let dst := obj_offset_to_raw dst_obj dst_offset_in_bytes dst_raw in
     let dst_klass := objArrayOop_element_klass (heap m) dst_obj in
     let m' := oop_arraycopy_in_heap decorators
                 src_obj src_offset_in_bytes src_raw
                 dst_obj dst_offset_in_bytes dst_raw n m in
     dst <= src \/ disjoint_ranges src dst n ->
     (k < n)%nat ->
     (forall i, (i < k)%nat ->
        assignable (heap m) dst_klass (element (heap m) src i)) ->
     is_null (element (heap m) src k) = true ->
     element (heap m') dst k = element (heap m) src k
     /\ is_null (element (heap m') dst k) = true
     /\ exists rest,
          trace m' = trace m ++ checked_trace src dst (S k) ++ rest).
Proof.
  intros Hcc Hnn.
  assert (Hnullpass : forall (h : Heap Klass T) dst_klass e,
             is_null e = true ->
             check_element decorators h src_obj dst_obj dst_klass e = None).
  { intros h dst_klass e Hnull. apply check_element_None.
    - unfold null_refused. now rewrite Hnn.
    - unfold cast_refused, is_instanceof_or_null.
      rewrite (decode_null _ Hnull). simpl. apply andb_false_r. }
  split; [|split].
  - intros dst_klass n src dst m Hnull after. subst after.
    rewrite copy_loop_S, element_address_S.
    rewrite Hnullpass by exact Hnull.
    split; [reflexivity|].
    destruct (copy_loop_outcome decorators src_obj dst_obj dst_klass n
                (src + heapOopSize) (dst + heapOopSize)
                (store dst (slot (heap m) src) (snd (load src m))))
      as (k & _ & _ & Hframe & Hout).
    assert (Hslot : slot (heap (copy_loop decorators src_obj dst_obj dst_klass n
                                  (element_address (src + heapOopSize) n)
                                  (src + heapOopSize) (dst + heapOopSize)
                                  (store dst (slot (heap m) src)
                                     (snd (load src m))))) dst
                    = slot (heap m) src).
    { rewrite Hframe.
      - simpl. apply update_same.
      - intros i _. rewrite <- element_address_S.
        pose proof (element_address_lt dst i). lia. }
    split; [exact Hslot|]. split; [now rewrite Hslot|].
    destruct Hout as [(_ & _ & Htr) | (_ & Htr & _)]; rewrite Htr; simpl;
      rewrite <- !app_assoc; simpl; eexists; reflexivity.
  - intros src_offset_in_bytes src_raw dst_offset_in_bytes dst_raw n m src m'.
    subst m'. rewrite checked_path by now rewrite Hcc.
    destruct (copy_loop_outcome decorators src_obj dst_obj
                (objArrayOop_element_klass (heap m) dst_obj) n src
                (obj_offset_to_raw dst_obj dst_offset_in_bytes dst_raw) m)
      as (k & _ & _ & _ & [(_ & Hcur & Htr) | (Hk & _ & e & He & Hcur)]).
    + left. now split.
    + right. exists k. split; [exact Hk|].
      apply check_element_Some in He as [(Hnull & _) | (_ & Hcast & ->)].
      * unfold null_refused in Hnull. now rewrite Hnn in Hnull.
      * split; [|exact Hcur].
        unfold cast_refused, is_instanceof_or_null in Hcast.
        unfold element. fold src.
        destruct (is_null (slot _ (element_address src k))) eqn:Hnull;
          [|reflexivity].
        rewrite (decode_null _ Hnull) in Hcast. simpl in Hcast.
        now rewrite andb_false_r in Hcast.
  - intros src_offset_in_bytes src_raw dst_offset_in_bytes dst_raw n m k
           src dst dst_klass m' Hsafe Hk Hok Hnull.
    subst m'. rewrite checked_path by now rewrite Hcc.
    fold src dst dst_klass.
    replace n with (S k + (n - S k))%nat in * by lia.
    rewrite copy_loop_prefix_forward.
    + rewrite <- element_address_add.
      destruct (copy_loop_outcome decorators src_obj dst_obj dst_klass
                  (n - S k) (element_address src (S k))
                  (element_address dst (S k)) (after_prefix src dst (S k) m))
        as (j & _ & _ & Hframe & Hout).
      assert (Hslot : element
                        (heap (copy_loop decorators src_obj dst_obj dst_klass
                                 (n - S k)
                                 (element_address (element_address src (S k))
                                    (n - S k))
                                 (element_address src (S k))
                                 (element_address dst (S k))
                                 (after_prefix src dst (S k) m))) dst k
                      = element (heap m) src k).
      { unfold element. rewrite Hframe.
        - apply after_prefix_copied. lia.
        - intros i _. rewrite element_address_add.
          pose proof (@element_address_mono T _ dst k (S k + i) ltac:(lia)).
          lia. }
      split; [exact Hslot|]. split; [now rewrite Hslot|].
      destruct Hout as [(_ & _ & Htr) | (_ & Htr & _)]; rewrite Htr;
        unfold after_prefix; simpl trace; rewrite <- !app_assoc;
        eexists; reflexivity.
    + intros i j Hji Hi. now apply (forward_reads_fresh (n := S k + (n - S k))).
    + intros i Hi. destruct (Nat.eq_dec i k) as [->|Hne].
      * now apply Hnullpass.
      * apply check_element_None.
        -- unfold null_refused. now rewrite Hnn.
        -- unfold cast_refused.
           pose proof (Hok i ltac:(lia)) as Hi'. unfold assignable in Hi'.
           rewrite Hi'. apply andb_false_r.
Qed.

End ArrayCopyProperties.

(* ===================================================================== *)
(** * Properties of the global barrier set and the start-up hooks        *)
(* ===================================================================== *)

Section Startup.

Lemma set_barrier_set_fresh (barrier_set : BarrierSet) (vm : VM) :
  _barrier_set vm = None ->
  is_Java_thread (Thread_current vm) = true ->
  on_thread_list (Thread_current vm) = false ->
  set_barrier_set barrier_set vm
  = Ok {| _barrier_set := Some barrier_set;
          Thread_current := Thread_current vm;
          notifications :=
            notifications vm ++ [on_thread_create barrier_set (Thread_current vm)] |}.
Proof.
  intros Hnull Hjava Hlist. unfold set_barrier_set, assert. simpl.
  now rewrite Hnull, Hjava, Hlist.
Qed.

Lemma set_barrier_set_again (installed other : BarrierSet) (vm : VM) :
  _barrier_set vm = Some installed ->
  set_barrier_set other vm = Fatal "Already initialized".
Proof. intros Hset. unfold set_barrier_set, assert. now rewrite Hset. Qed.

Lemma gc_barrier_stubs_init_keeps (ZERO : bool) (vm vm' : VM) :
  gc_barrier_stubs_init ZERO vm = Ok vm' ->
  _barrier_set vm' = _barrier_set vm
  /\ Thread_current vm' = Thread_current vm.
Proof.
  unfold gc_barrier_stubs_init. destruct ZERO.
  - intros [= <-]. now split.
  - destruct (_barrier_set vm) as [bs|] eqn:Hbs; [|discriminate].
    destruct (_barrier_set_assembler bs); [|discriminate].
    intros [= <-]. simpl. now split.
Qed.

(** Once installed, the barrier set survives every sequence of calls the
    VM survives. *)
Lemma run_keeps_barrier_set (ZERO : bool) (calls : list call) :
  forall (installed : BarrierSet) (vm vm' : VM),
    _barrier_set vm = Some installed ->
    run ZERO calls vm = Ok vm' ->
    _barrier_set vm' = Some installed
    /\ Thread_current vm' = Thread_current vm.
Proof.
  induction calls as [|c rest IH]; intros installed vm vm' Hset Hrun; simpl in Hrun.
  - injection Hrun as <-. now split.
  - destruct c as [other|]; simpl in Hrun.
    + now rewrite (@set_barrier_set_again installed other vm Hset) in Hrun.
    + destruct (gc_barrier_stubs_init ZERO vm) as [vm1| |] eqn:Hinit;
        try discriminate.
      apply gc_barrier_stubs_init_keeps in Hinit as [Hbs Hthread].
      rewrite <- Hthread. apply (IH installed vm1 vm'); [|exact Hrun].
      now rewrite Hbs.
Qed.

(** C7.  The first call of [set_barrier_set], by a main thread that is a
    Java thread not yet on the thread list, returns with the given
    instance installed in [_barrier_set] and the thread untouched.  After
    any further calls of this file's entry points that the VM survives, the
    same instance is still installed, no exception has been made pending,
    and one more call of [set_barrier_set] halts the VM with the fatal
    error "Already initialized" instead of returning. *)
Theorem set_barrier_set_installs_once (barrier_set : BarrierSet) (vm : VM) :
  _barrier_set vm = None ->
  is_Java_thread (Thread_current vm) = true ->
  on_thread_list (Thread_current vm) = false ->
  exists vm1,
    set_barrier_set barrier_set vm = Ok vm1
    /\ _barrier_set vm1 = Some barrier_set
    /\ Thread_current vm1 = Thread_current vm
    /\ forall (ZERO : bool) (calls : list call) (vm2 : VM),
         run ZERO calls vm1 = Ok vm2 ->
         _barrier_set vm2 = Some barrier_set
         /\ pending_exception (Thread_current vm2)
            = pending_exception (Thread_current vm)
         /\ forall other : BarrierSet,
              set_barrier_set other vm2 = Fatal "Already initialized".
Proof.
  intros Hnull Hjava Hlist. eexists. split.
  - now apply set_barrier_set_fresh.
  - split; [reflexivity|]. split; [reflexivity|].
    intros ZERO calls vm2 Hrun.
    apply (@run_keeps_barrier_set ZERO calls barrier_set) in Hrun
      as [Hbs Hthread]; [|reflexivity].
    split; [exact Hbs|]. split; [now rewrite Hthread|].
    intros other. now apply (@set_barrier_set_again barrier_set other vm2).
Qed.

(** C8.  A call of [set_barrier_set] on a VM without a barrier set, by a
    main thread that is a Java thread: if the thread is not on the thread
    list, the call installs the instance and then makes exactly one call
    into it, [on_thread_create] with the current thread, before it
    returns; if the thread is already on the thread list, the call halts
    the VM with a fatal error. *)
Theorem set_barrier_set_notifies_main_thread (barrier_set : BarrierSet) (vm : VM) :
  _barrier_set vm = None ->
  is_Java_thread (Thread_current vm) = true ->
  set_barrier_set barrier_set vm
  = if on_thread_list (Thread_current vm) then
      Fatal "Main thread already on thread list."
    else
      Ok {| _barrier_set := Some barrier_set;
            Thread_current := Thread_current vm;
            notifications :=
              notifications vm
                ++ [on_thread_create barrier_set (Thread_current vm)] |}.
Proof.
  intros Hnull Hjava.
  destruct (on_thread_list (Thread_current vm)) eqn:Hlist.
  - unfold set_barrier_set, assert. simpl. now rewrite Hnull, Hjava, Hlist.
  - now apply set_barrier_set_fresh.
Qed.

(** C9.  With a barrier set installed, [gc_barrier_stubs_init] in a build
    with generated code calls [barrier_stubs_init] of the barrier set's
    assembler exactly once and changes nothing else; in a [ZERO] build,
    which has no stub generator, it returns the VM unchanged. *)
Theorem gc_barrier_stubs_init_once
    (vm : VM) (bs : BarrierSet) (bs_assembler : BarrierSetAssembler) :
  _barrier_set vm = Some bs ->
  (_barrier_set_assembler bs = Some bs_assembler ->
   gc_barrier_stubs_init false vm
   = Ok {| _barrier_set := _barrier_set vm;
           Thread_current := Thread_current vm;
           notifications :=
             notifications vm ++ [barrier_stubs_init bs_assembler] |})
  /\ gc_barrier_stubs_init true vm = Ok vm.
Proof.
  intros Hbs. split; [|reflexivity].
  intros Hasm. unfold gc_barrier_stubs_init, notify. now rewrite Hbs, Hasm.
Qed.
End Startup.

(* ===================================================================== *)
(** * The properties on the concrete heap                                 *)
(* ===================================================================== *)

Section Instances.
Import Scenario.
#[local] Existing Instance java_klasses.
#[local] Existing Instance plain_oops.
#[local] Existing Instance flags.

Ltac below_cases i H :=
  repeat (first [exfalso; lia | destruct i as [|i]; [reflexivity|]]).

(** Copying the three elements of the [Object[]] into the [String[]] with
    the cast check stops at index [1], the [B]; moving the last two
    elements of the [Object[]] one slot down, the ranges overlapping,
    succeeds. *)
Lemma checkcast_arraycopy_witness :
  (let m' := oop_arraycopy_in_heap CHECKCAST_ONLY 4096 24 0 4096 16 0 2 machine in
   element (heap m') 4112 0 = 768
   /\ element (heap m') 4112 1 = NULL
   /\ current m' = main_thread)
  /\
  (let m' := oop_arraycopy_in_heap CHECKCAST_ONLY 4096 16 0 8192 16 0 3 machine in
   element (heap m') 8208 0 = 512
   /\ element (heap m') 8208 1 = 640
   /\ pending_exception (current m')
      = Some (mkException java_lang_ArrayStoreException
                (array_store_message java_lang_Object java_lang_String))
   /\ trace m' = [LoadElem 4112; StoreElem 8208; LoadElem 4120]).
Proof.
  split.
  - assert (Hsafe : (4112 : Z) <= 4120 \/ disjoint_ranges 4120 4112 2)
      by (left; vm_compute; discriminate).
    destruct (@checkcast_arraycopy_partial_copy JavaKlass java_klasses oop plain_oops flags
                CHECKCAST_ONLY
                4096 24 0 4096 16 0 2%nat machine eq_refl eq_refl Hsafe) as [Hall _].
    destruct Hall as (Hcopied & Hcur & _).
    + intros i Hi. below_cases i Hi.
    + split; [apply (Hcopied 0%nat); lia|].
      split; [apply (Hcopied 1%nat); lia|exact Hcur].
  - assert (Hsafe : (8208 : Z) <= 4112 \/ disjoint_ranges 4112 8208 3)
      by (right; left; vm_compute; discriminate).
    destruct (@checkcast_arraycopy_partial_copy JavaKlass java_klasses oop plain_oops flags
                CHECKCAST_ONLY
                4096 16 0 8192 16 0 3%nat machine eq_refl eq_refl Hsafe) as [_ Hfirst].
    destruct (Hfirst 1%nat) as (Hcopied & Hkept & Hcur & _ & Htr & _).
    + lia.
    + intros i Hi. below_cases i Hi.
    + intros E. vm_compute in E. discriminate.
    + split; [apply (Hcopied 0%nat); lia|].
      split; [apply (Hkept 1%nat); lia|].
      split; [now rewrite Hcur|exact Htr].
Defined.

(** The cast-check property fails when the destination starts inside the
    source range.  The [Object[]] is copied onto itself one slot further
    with the cast check alone: both elements are assignable to [Object]
    and nothing is raised, yet destination element [1] is not the source
    element [1] of the heap on entry. *)
Lemma checkcast_arraycopy_counterexample :
  let m' := oop_arraycopy_in_heap CHECKCAST_ONLY
              4096 16 0 4096 24 0 2 machine in
  HasDecorator CHECKCAST_ONLY ARRAYCOPY_CHECKCAST = true
  /\ HasDecorator CHECKCAST_ONLY ARRAYCOPY_NOTNULL = false
  /\ (4112 < 4120 < element_address 4112 2)
  /\ (forall i, (i < 2)%nat ->
        assignable (heap machine) java_lang_Object (element (heap machine) 4112 i))
  /\ pending_exception (current m') = None
  /\ element (heap m') 4120 1 <> element (heap machine) 4112 1.
Proof.
  split; [reflexivity|]. split; [reflexivity|].
  split; [split; reflexivity|]. split; [|split; [reflexivity|]].
  - intros i Hi. below_cases i Hi.
  - vm_compute. discriminate.
Qed.

(** Copying the [Object[]] into the [String[]] with nulls forbidden stops
    at index [2], the null; copying the first two elements does what the
    raw copy does. *)
Lemma notnull_arraycopy_witness :
  (let m' := oop_arraycopy_in_heap NOTNULL_ONLY 4096 16 0 8192 16 0 2 machine in
   heap m' = heap (Raw_oop_arraycopy NULL 0 4112 NULL 0 8208 2 machine)
   /\ current m' = main_thread)
  /\
  (let m' := oop_arraycopy_in_heap NOTNULL_ONLY 4096 16 0 8192 16 0 3 machine in
   element (heap m') 8208 1 = 768
   /\ element (heap m') 8208 2 = NULL
   /\ exists message,
        pending_exception (current m')
        = Some (mkException java_lang_NullPointerException message)
        /\ mentions "java.lang.String" message).
Proof.
  split.
  - assert (Hsafe : (8208 : Z) <= 4112 \/ disjoint_ranges 4112 8208 2)
      by (right; left; vm_compute; discriminate).
    destruct (@notnull_arraycopy_partial_copy JavaKlass java_klasses oop plain_oops
                flags NOTNULL_ONLY 4096 16 0 8192 16 0 2%nat machine
                eq_refl eq_refl Hsafe)
      as [Hall _].
    apply Hall.
    intros i Hi. below_cases i Hi.
  - assert (Hsafe : (8208 : Z) <= 4112 \/ disjoint_ranges 4112 8208 3)
      by (right; left; vm_compute; discriminate).
    destruct (@notnull_arraycopy_partial_copy JavaKlass java_klasses oop plain_oops
                flags NOTNULL_ONLY 4096 16 0 8192 16 0 3%nat machine
                eq_refl eq_refl Hsafe)
      as [_ Hfirst].
    destruct (Hfirst 2%nat) as (Hcopied & Hkept & _ & Hmessage).
    + lia.
    + intros i Hi. below_cases i Hi.
    + reflexivity.
    + split; [apply (Hcopied 1%nat); lia|].
      split; [apply (Hkept 2%nat); lia|exact Hmessage].
Defined.

(** The nulls-forbidden property fails when the destination starts inside
    the source range.  The [Object[]] is copied onto itself one slot
    further with nulls forbidden alone: neither of the two elements is
    null, yet the loop and the raw copy leave different heaps. *)
Lemma notnull_arraycopy_counterexample :
  let m' := oop_arraycopy_in_heap NOTNULL_ONLY
              4096 16 0 4096 24 0 2 machine in
  let unchecked := Raw_oop_arraycopy NULL 0 4112 NULL 0 4120 2 machine in
  HasDecorator NOTNULL_ONLY ARRAYCOPY_NOTNULL = true
  /\ HasDecorator NOTNULL_ONLY ARRAYCOPY_CHECKCAST = false
  /\ (4112 < 4120 < element_address 4112 2)
  /\ (forall i, (i < 2)%nat -> is_null (element (heap machine) 4112 i) = false)
  /\ element (heap m') 4120 1 <> element (heap unchecked) 4120 1.
Proof.
  split; [reflexivity|]. split; [reflexivity|].
  split; [split; reflexivity|]. split.
  - intros i Hi. below_cases i Hi.
  - vm_compute. discriminate.
Qed.

(** The unchecked copy of the [Object[]] into the [String[]]. *)
Lemma unchecked_arraycopy_witness :
  let m' := oop_arraycopy_in_heap UNCHECKED 4096 16 0 8192 16 0 3 machine in
  trace m' = [RawCopy 4112 8208 3]
  /\ (forall i, (i < 3)%nat ->
        element (heap m') 8208 i = element (heap machine) 4112 i)
  /\ current m' = main_thread.
Proof.
  destruct (@unchecked_arraycopy_is_raw_copy JavaKlass java_klasses oop plain_oops
              flags UNCHECKED 4096 16 0 8192 16 0 3%nat machine eq_refl eq_refl)
    as (_ & Htr & Hcopied & Hcur).
  split; [exact Htr|]. split; [exact Hcopied|exact Hcur].
Defined.

(** The null element [2] of the [Object[]] copied, with the cast check
    alone, onto element [1] of the [String[]], which held a [String]: no
    exception, and the destination slot holds the null afterwards. *)
Lemma checkcast_stores_null_witness :
  (let after := copy_loop CHECKCAST_ONLY 4096 8192 java_lang_String 1
                  (element_address 4128 1) 4128 8216 machine in
   slot (heap machine) 8216 = 640
   /\ slot (heap after) 8216 = NULL
   /\ exists rest, trace after = [LoadElem 4128; StoreElem 8216] ++ rest)
  /\
  (let m' := oop_arraycopy_in_heap CHECKCAST_ONLY 4096 16 0 8192 16 0 3
               {| heap := {| klass := objects;
                             slot := fun p => if p =? 4120 then NULL else slots p |};
                  current := main_thread;
                  trace := [] |} in
   element (heap m') 8208 1 = NULL
   /\ exists rest, trace m' = checked_trace 4112 8208 2 ++ rest).
Proof.
  destruct (@checkcast_stores_null_elements JavaKlass java_klasses oop plain_oops
              flags CHECKCAST_ONLY 4096 8192 eq_refl eq_refl)
    as (Hstep & _ & Hwhole).
  split.
  - destruct (Hstep java_lang_String 0%nat 4128 8216 machine eq_refl)
      as (_ & Hslot & _ & Htrace).
    split; [reflexivity|]. split; [exact Hslot|exact Htrace].
  - assert (Hsafe : (8208 : Z) <= 4112 \/ disjoint_ranges 4112 8208 3)
      by (right; left; vm_compute; discriminate).
    destruct (Hwhole 16 0 16 0 3%nat
                {| heap := {| klass := objects;
                              slot := fun p => if p =? 4120 then NULL else slots p |};
                   current := main_thread;
                   trace := [] |} 1%nat Hsafe)
      as (Hslot & _ & Htrace).
    + lia.
    + intros i Hi. below_cases i Hi.
    + reflexivity.
    + split; [exact Hslot|exact Htrace].
Defined.



(** The first [set_barrier_set] on the initial VM. *)
Lemma set_barrier_set_installs_once_witness :
  exists vm1,
    set_barrier_set a_barrier_set (initial_VM main_thread) = Ok vm1
    /\ _barrier_set vm1 = Some a_barrier_set
    /\ set_barrier_set another_barrier_set vm1 = Fatal "Already initialized".
Proof.
  destruct (@set_barrier_set_installs_once a_barrier_set (initial_VM main_thread)
              eq_refl eq_refl eq_refl) as (vm1 & Hcall & Hset & _ & Hafter).
  exists vm1. split; [exact Hcall|]. split; [exact Hset|].
  destruct (Hafter false [] vm1 eq_refl) as (_ & _ & Hfatal).
  apply Hfatal.
Defined.

Lemma set_barrier_set_notifies_witness :
  set_barrier_set a_barrier_set (initial_VM main_thread)
  = Ok {| _barrier_set := Some a_barrier_set;
          Thread_current := main_thread;
          notifications := [on_thread_create a_barrier_set main_thread] |}.
Proof.
  apply (@set_barrier_set_notifies_main_thread a_barrier_set
           (initial_VM main_thread) eq_refl eq_refl).
Defined.

Lemma gc_barrier_stubs_init_witness :
  let vm := {| _barrier_set := Some a_barrier_set;
               Thread_current := main_thread;
               notifications := [on_thread_create a_barrier_set main_thread] |} in
  gc_barrier_stubs_init false vm
  = Ok {| _barrier_set := Some a_barrier_set;
          Thread_current := main_thread;
          notifications := [on_thread_create a_barrier_set main_thread;
                            barrier_stubs_init an_assembler] |}
  /\ gc_barrier_stubs_init true vm = Ok vm.
Proof.
  intros vm.
  destruct (@gc_barrier_stubs_init_once vm a_barrier_set an_assembler eq_refl)
    as [Hemit Hzero].
  split; [apply Hemit; reflexivity|exact Hzero].
Defined.
End Instances.

(* ===================================================================== *)
(** * Further properties of the array copy                                *)
(* ===================================================================== *)

Section ArrayCopyFurther.
Context {Klass : Type} `{KlassOps Klass}.
Context {T : Type} `{HeapOop T}.
Context `{ArraycopyDecorators}.

(** X1.  The checked copy is safe on overlapping ranges whose destination
    starts at or before the source (as it is on disjoint ranges), for
    every decorator set that takes the checked path.  If no element is
    refused by either test, every destination element [i < n] ends up
    equal to the source element [i] of the heap on entry and the thread is
    unchanged.  If the first refused element sits at index [k < n],
    destination indices [0,k) hold the source elements of the heap on
    entry, destination indices [k,n) are unchanged, and the pending
    exception is the null-store one when the element is refused by the
    null test and the array-store one otherwise. *)
Theorem checked_arraycopy_forward_overlap
    (decorators : DecoratorSet)
    (src_obj : oop) (src_offset_in_bytes : Z) (src_raw : address)
    (dst_obj : oop) (dst_offset_in_bytes : Z) (dst_raw : address)
    (n : nat) (m : Machine Klass T) :
  let src := obj_offset_to_raw src_obj src_offset_in_bytes src_raw in
  let dst := obj_offset_to_raw dst_obj dst_offset_in_bytes dst_raw in
  let dst_klass := objArrayOop_element_klass (heap m) dst_obj in
  let m' := oop_arraycopy_in_heap decorators src_obj src_offset_in_bytes src_raw
              dst_obj dst_offset_in_bytes dst_raw n m in
  HasDecorator decorators ARRAYCOPY_CHECKCAST
  || HasDecorator decorators ARRAYCOPY_NOTNULL = true ->
  dst <= src \/ disjoint_ranges src dst n ->
  ((forall i, (i < n)%nat ->
      null_refused decorators (element (heap m) src i) = false
      /\ cast_refused decorators (heap m) dst_klass (element (heap m) src i) = false) ->
   (forall i, (i < n)%nat -> element (heap m') dst i = element (heap m) src i)
   /\ current m' = current m)
  /\
  (forall k, (k < n)%nat ->
   (forall i, (i < k)%nat ->
      null_refused decorators (element (heap m) src i) = false
      /\ cast_refused decorators (heap m) dst_klass (element (heap m) src i) = false) ->
   null_refused decorators (element (heap m) src k) = true
   \/ cast_refused decorators (heap m) dst_klass (element (heap m) src k) = true ->
   (forall i, (i < k)%nat -> element (heap m') dst i = element (heap m) src i)
   /\ (forall i, (k <= i < n)%nat ->
         element (heap m') dst i = element (heap m) dst i)
   /\ current m'
      = current (if null_refused decorators (element (heap m) src k)
                 then throw_array_null_pointer_store_exception src_obj dst_obj m
                 else throw_array_store_exception src_obj dst_obj m)).
Proof.
  intros src dst dst_klass m' Hor Hsafe.
  assert (Hpath : m' = copy_loop decorators src_obj dst_obj dst_klass n
                         (element_address src n) src dst m).
  { subst m'. now apply checked_path. }
  split.
  - intros Hpass. rewrite Hpath.
    rewrite copy_loop_all_forward; [|exact Hsafe|].
    + split; [|reflexivity]. intros i Hi. now apply after_prefix_copied.
    + intros i Hi. destruct (Hpass i Hi) as [Hn Hc]. now apply check_element_None.
  - intros k Hk Hpass Hbad. rewrite Hpath.
    destruct (null_refused decorators (element (heap m) src k)) eqn:Hnull.
    + rewrite (@copy_loop_first_refused_forward _ _ _ _ _ decorators
                 src_obj dst_obj dst_klass n k src dst m
                 (mkException java_lang_NullPointerException
                    (null_pointer_store_message
                       (element_klass (klass (heap m) dst_obj)))));
        [|exact Hsafe|exact Hk| |now apply check_element_null].
      * split; [|split; [|reflexivity]].
        -- intros i Hi. now apply after_prefix_copied.
        -- intros i Hi. apply after_prefix_untouched. lia.
      * intros i Hi. destruct (Hpass i Hi) as [Hn Hc].
        now apply check_element_None.
    + destruct Hbad as [Hbad | Hbad]; [discriminate|].
      rewrite (@copy_loop_first_refused_forward _ _ _ _ _ decorators
                 src_obj dst_obj dst_klass n k src dst m
                 (mkException java_lang_ArrayStoreException
                    (array_store_message
                       (element_klass (klass (heap m) src_obj))
                       (element_klass (klass (heap m) dst_obj)))));
        [|exact Hsafe|exact Hk| |now apply check_element_cast].
      * split; [|split; [|reflexivity]].
        -- intros i Hi. now apply after_prefix_copied.
        -- intros i Hi. apply after_prefix_untouched. lia.
      * intros i Hi. destruct (Hpass i Hi) as [Hn Hc].
        now apply check_element_None.
Qed.

Lemma copy_loop_self (decorators : DecoratorSet) (src_obj dst_obj : oop)
    (dst_klass : Klass) (n : nat) :
  forall (p : address) (m : Machine Klass T) (a : address),
    slot (heap (copy_loop decorators src_obj dst_obj dst_klass n
                  (element_address p n) p p m)) a
    = slot (heap m) a.
Proof.
  induction n as [|n IH]; intros p m a; [reflexivity|].
  rewrite copy_loop_S.
  destruct (check_element decorators (heap m) src_obj dst_obj dst_klass
              (slot (heap m) p)); [reflexivity|].
  rewrite IH. simpl. unfold update.
  destruct (a =? p) eqn:E; [|reflexivity].
  apply Z.eqb_eq in E. now subst a.
Qed.

(** X2.  Copying a range onto itself (source and destination resolve to
    the same address) changes no element slot, for every decorator set,
    length and contents, whether the copy completes or stops at a refused
    element: on the checked path such a copy only tests the elements. *)
Theorem self_arraycopy_keeps_every_slot
    (decorators : DecoratorSet)
    (src_obj : oop) (src_offset_in_bytes : Z) (src_raw : address)
    (dst_obj : oop) (dst_offset_in_bytes : Z) (dst_raw : address)
    (n : nat) (m : Machine Klass T) :
  obj_offset_to_raw src_obj src_offset_in_bytes src_raw
  = obj_offset_to_raw dst_obj dst_offset_in_bytes dst_raw ->
  forall a : address,
    slot (heap (oop_arraycopy_in_heap decorators
                  src_obj src_offset_in_bytes src_raw
                  dst_obj dst_offset_in_bytes dst_raw n m)) a
    = slot (heap m) a.
Proof.
  intros Hsame a. unfold oop_arraycopy_in_heap. rewrite <- Hsame.
  set (p := obj_offset_to_raw src_obj src_offset_in_bytes src_raw).
  destruct (negb (HasDecorator decorators ARRAYCOPY_CHECKCAST)
            && negb (HasDecorator decorators ARRAYCOPY_NOTNULL)).
  - simpl.
    destruct (in_range_or_not p a n) as [(i & Hi & ->) | Hout].
    + apply store_range_inside. now apply load_range_nth.
    + apply store_range_outside. intros i Hi.
      rewrite load_range_length in Hi. now apply Hout.
  - apply copy_loop_self.
Qed.

(** X3.  The exception tells which test refused which element, for every
    decorator set on the checked path and every input, overlapping ranges
    included.  Either the copy completes, the thread is unchanged and all
    [n] elements were read and stored in order; or it stops at an index
    [k < n] right after reading element [k], and then either the
    nulls-forbidden decorator is set, that element is null and the
    null-store exception is pending, or the cast-check decorator is set,
    that element is not null and not an instance of the destination's
    element type, and the array-store exception is pending. *)
Theorem checked_arraycopy_diagnosis
    (decorators : DecoratorSet)
    (src_obj : oop) (src_offset_in_bytes : Z) (src_raw : address)
    (dst_obj : oop) (dst_offset_in_bytes : Z) (dst_raw : address)
    (n : nat) (m : Machine Klass T) :
  let src := obj_offset_to_raw src_obj src_offset_in_bytes src_raw in
  let dst := obj_offset_to_raw dst_obj dst_offset_in_bytes dst_raw in
  let dst_klass := objArrayOop_element_klass (heap m) dst_obj in
  let m' := oop_arraycopy_in_heap decorators src_obj src_offset_in_bytes src_raw
              dst_obj dst_offset_in_bytes dst_raw n m in
  HasDecorator decorators ARRAYCOPY_CHECKCAST
  || HasDecorator decorators ARRAYCOPY_NOTNULL = true ->
  (current m' = current m /\ trace m' = trace m ++ checked_trace src dst n)
  \/ exists k,
       (k < n)%nat
       /\ trace m' = trace m ++ checked_trace src dst k
                       ++ [LoadElem (element_address src k)]
       /\ ((HasDecorator decorators ARRAYCOPY_NOTNULL = true
            /\ is_null (element (heap m') src k) = true
            /\ current m'
               = current (throw_array_null_pointer_store_exception
                            src_obj dst_obj m))
           \/ (HasDecorator decorators ARRAYCOPY_CHECKCAST = true
               /\ is_null (element (heap m') src k) = false
               /\ is_instanceof_or_null (heap m)
                    (decode (element (heap m') src k)) dst_klass = false
               /\ current m'
                  = current (throw_array_store_exception src_obj dst_obj m))).
Proof.
  intros src dst dst_klass m' Hor. subst m'. rewrite checked_path by exact Hor.
  fold src dst dst_klass.
  destruct (copy_loop_outcome decorators src_obj dst_obj dst_klass n src dst m)
    as (k & _ & _ & _ & [(_ & Hcur & Htr) | (Hk & Htr & e & He & Hcur)]).
  - left. now split.
  - right. exists k. split; [exact Hk|]. split; [exact Htr|].
    unfold element.
    set (elem := slot _ (element_address src k)) in *.
    apply check_element_Some in He as [(Hnull & ->) | (Hnull & Hcast & ->)].
    + left. unfold null_refused in Hnull.
      apply andb_true_iff in Hnull as [Hflag Hisnull].
      split; [exact Hflag|]. split; [exact Hisnull|exact Hcur].
    + right. unfold cast_refused in Hcast.
      apply andb_true_iff in Hcast as [Hflag Hinst].
      apply negb_true_iff in Hinst.
      split; [exact Hflag|]. split; [|split; [exact Hinst|exact Hcur]].
      destruct (is_null elem) eqn:Hisnull; [|reflexivity].
      unfold is_instanceof_or_null in Hinst.
      now rewrite (decode_null _ Hisnull) in Hinst.
Qed.

(** X4.  On the checked path the loop never reads an element at or beyond
    index [n] and never reads an element twice: whatever the input, the
    source slots it reads are those of indices [0 .. r-1] in increasing
    order and the destination slots it writes those of indices
    [0 .. w-1], with [w <= r <= n] and [r <= w + 1] (one more read than
    stores exactly when the last element read was refused). *)
Theorem checked_arraycopy_access_bounds
    (decorators : DecoratorSet)
    (src_obj : oop) (src_offset_in_bytes : Z) (src_raw : address)
    (dst_obj : oop) (dst_offset_in_bytes : Z) (dst_raw : address)
    (n : nat) (m : Machine Klass T) :
  let src := obj_offset_to_raw src_obj src_offset_in_bytes src_raw in
  let dst := obj_offset_to_raw dst_obj dst_offset_in_bytes dst_raw in
  let m' := oop_arraycopy_in_heap decorators src_obj src_offset_in_bytes src_raw
              dst_obj dst_offset_in_bytes dst_raw n m in
  HasDecorator decorators ARRAYCOPY_CHECKCAST
  || HasDecorator decorators ARRAYCOPY_NOTNULL = true ->
  exists (added : list access) (r w : nat),
    trace m' = trace m ++ added
    /\ flat_map (elements_read heapOopSize) added
       = map (element_address src) (seq 0 r)
    /\ flat_map (elements_written heapOopSize) added
       = map (element_address dst) (seq 0 w)
    /\ (w <= r)%nat /\ (r <= n)%nat /\ (r <= S w)%nat
    /\ (r = w <-> w = n).
Proof.
  intros src dst m' Hor. subst m'. rewrite checked_path by exact Hor.
  fold src dst.
  destruct (copy_loop_outcome decorators src_obj dst_obj
              (objArrayOop_element_klass (heap m) dst_obj) n src dst m)
    as (k & Hk & _ & _ & [(-> & _ & Htr) | (Hlt & Htr & _)]).
  - exists (checked_trace src dst n), n, n.
    split; [exact Htr|]. split; [apply reads_checked_trace|].
    split; [apply writes_checked_trace|]. repeat split; lia.
  - exists (checked_trace src dst k ++ [LoadElem (element_address src k)]),
      (S k), k.
    split; [exact Htr|]. split; [|split].
    + rewrite flat_map_app, reads_checked_trace, seq_S, map_app. reflexivity.
    + rewrite flat_map_app, writes_checked_trace. simpl. apply app_nil_r.
    + repeat split; lia.
Qed.

Lemma copy_loop_split (decorators : DecoratorSet) (src_obj dst_obj : oop)
    (dst_klass : Klass) (a : nat) :
  forall (b : nat) (src dst : address) (m : Machine Klass T),
    let m1 := copy_loop decorators src_obj dst_obj dst_klass a
                (element_address src a) src dst m in
    let whole := copy_loop decorators src_obj dst_obj dst_klass (a + b)
                   (element_address src (a + b)) src dst m in
    (trace m1 = trace m ++ checked_trace src dst a
     /\ whole = copy_loop decorators src_obj dst_obj dst_klass b
                  (element_address src (a + b))
                  (element_address src a) (element_address dst a) m1)
    \/ (exists k, (k < a)%nat
                  /\ trace m1 = trace m ++ checked_trace src dst k
                                  ++ [LoadElem (element_address src k)]
                  /\ whole = m1).
Proof.
  induction a as [|a IH]; intros b src dst m m1 whole.
  - left. subst m1 whole. simpl. rewrite !element_address_0.
    split; [|reflexivity]. unfold checked_trace. simpl. now rewrite app_nil_r.
  - subst m1 whole. change (S a + b)%nat with (S (a + b)).
    rewrite !copy_loop_S.
    destruct (check_element decorators (heap m) src_obj dst_obj dst_klass
                (slot (heap m) src)) as [e|].
    + right. exists 0%nat. split; [lia|]. rewrite element_address_0.
      split; reflexivity.
    + destruct (IH b (src + heapOopSize) (dst + heapOopSize)
                  (store dst (slot (heap m) src) (snd (load src m))))
        as [(Htr & Hwhole) | (k & Hk & Htr & Hwhole)].
      * left. split.
        -- rewrite Htr, checked_trace_S. simpl. now rewrite <- !app_assoc.
        -- rewrite Hwhole, !element_address_S. reflexivity.
      * right. exists (S k). split; [lia|]. split; [|exact Hwhole].
        rewrite Htr, checked_trace_S, element_address_S. simpl.
        now rewrite <- !app_assoc.
Qed.

Lemma obj_offset_to_raw_advance (obj : oop) (offset_in_bytes : Z)
    (raw : address) (a : nat) :
  obj <> NULL ->
  obj_offset_to_raw obj (offset_in_bytes + Z.of_nat a * heapOopSize) raw
  = element_address (obj_offset_to_raw obj offset_in_bytes raw) a.
Proof.
  intros Hobj. unfold obj_offset_to_raw, element_address.
  apply Z.eqb_neq in Hobj. rewrite Hobj. lia.
Qed.

(** X6.  Checked copies compose.  For arrays in the heap and every
    decorator set on the checked path, a copy of [a + b] elements is the
    copy of the first [a] elements followed, when that one completes, by
    the copy of the next [b] elements from the offsets [a] elements
    further; when the copy of the first [a] elements stops at a refused
    element, the copy of [a + b] elements stops in the same state.  This
    holds on every input, overlapping ranges included. *)
Theorem checked_arraycopy_composes
    (decorators : DecoratorSet)
    (src_obj : oop) (src_offset_in_bytes : Z) (src_raw : address)
    (dst_obj : oop) (dst_offset_in_bytes : Z) (dst_raw : address)
    (a b : nat) (m : Machine Klass T) :
  let src := obj_offset_to_raw src_obj src_offset_in_bytes src_raw in
  let dst := obj_offset_to_raw dst_obj dst_offset_in_bytes dst_raw in
  let m1 := oop_arraycopy_in_heap decorators src_obj src_offset_in_bytes src_raw
              dst_obj dst_offset_in_bytes dst_raw a m in
  let whole := oop_arraycopy_in_heap decorators
                 src_obj src_offset_in_bytes src_raw
                 dst_obj dst_offset_in_bytes dst_raw (a + b) m in
  HasDecorator decorators ARRAYCOPY_CHECKCAST
  || HasDecorator decorators ARRAYCOPY_NOTNULL = true ->
  src_obj <> NULL -> dst_obj <> NULL ->
  (trace m1 = trace m ++ checked_trace src dst a
   /\ whole = oop_arraycopy_in_heap decorators
                src_obj (src_offset_in_bytes + Z.of_nat a * heapOopSize) src_raw
                dst_obj (dst_offset_in_bytes + Z.of_nat a * heapOopSize) dst_raw
                b m1)
  \/ (exists k, (k < a)%nat
                /\ trace m1 = trace m ++ checked_trace src dst k
                                ++ [LoadElem (element_address src k)]
                /\ whole = m1).
Proof.
  intros src dst m1 whole Hor Hsrc Hdst. subst m1 whole.
  rewrite !checked_path by exact Hor.
  rewrite !obj_offset_to_raw_advance by assumption. fold src dst.
  rewrite element_address_add.
  destruct (copy_loop_outcome decorators src_obj dst_obj
              (objArrayOop_element_klass (heap m) dst_obj) a src dst m)
    as (_ & _ & Hklass & _).
  set (dst_klass := objArrayOop_element_klass (heap m) dst_obj) in *.
  assert (Hsame : objArrayOop_element_klass
                    (heap (copy_loop decorators src_obj dst_obj dst_klass a
                             (element_address src a) src dst m)) dst_obj
                  = dst_klass).
  { unfold objArrayOop_element_klass. now rewrite Hklass. }
  rewrite Hsame. apply copy_loop_split.
Qed.

(** X7.  Checked copies over disjoint ranges are idempotent.  For every
    decorator set on the checked path and every contents, running the same
    copy a second time leaves every element slot and the thread as the
    first run left them: it stops at the same element with the same
    exception, or completes again. *)
Theorem checked_arraycopy_idempotent
    (decorators : DecoratorSet)
    (src_obj : oop) (src_offset_in_bytes : Z) (src_raw : address)
    (dst_obj : oop) (dst_offset_in_bytes : Z) (dst_raw : address)
    (n : nat) (m : Machine Klass T) :
  let src := obj_offset_to_raw src_obj src_offset_in_bytes src_raw in
  let dst := obj_offset_to_raw dst_obj dst_offset_in_bytes dst_raw in
  let m1 := oop_arraycopy_in_heap decorators src_obj src_offset_in_bytes src_raw
              dst_obj dst_offset_in_bytes dst_raw n m in
  let m2 := oop_arraycopy_in_heap decorators src_obj src_offset_in_bytes src_raw
              dst_obj dst_offset_in_bytes dst_raw n m1 in
  HasDecorator decorators ARRAYCOPY_CHECKCAST
  || HasDecorator decorators ARRAYCOPY_NOTNULL = true ->
  disjoint_ranges src dst n ->
  (forall a : address, slot (heap m2) a = slot (heap m1) a)
  /\ current m2 = current m1.
Proof.
  intros src dst m1 m2 Hor Hdisj. subst m2 m1.
  rewrite !checked_path by exact Hor. fold src dst.
  set (dst_klass := objArrayOop_element_klass (heap m) dst_obj).
  assert (Hslots : forall k (m0 : Machine Klass T) a,
             (k <= n)%nat ->
             slot (heap (after_prefix src dst k (after_prefix src dst k m0))) a
             = slot (heap (after_prefix src dst k m0)) a).
  { intros k m0 a Hk.
    destruct (in_range_or_not dst a k) as [(i & Hi & ->) | Hout].
    - rewrite (after_prefix_copied src dst (after_prefix src dst k m0) Hi).
      rewrite (@after_prefix_source _ _ _ src dst k n i m0 Hdisj Hk) by lia.
      now rewrite after_prefix_copied.
    - simpl. apply store_range_outside. intros i Hi.
      rewrite load_range_length in Hi. now apply Hout. }
  destruct (first_refused_or_none decorators src_obj dst_obj dst_klass
              (heap m) src n) as [Hall | (k & e & Hk & Hpass & Hfail)].
  - rewrite (copy_loop_all decorators src_obj dst_obj dst_klass m Hdisj Hall).
    change (objArrayOop_element_klass (heap (after_prefix src dst n m)) dst_obj)
      with dst_klass.
    rewrite copy_loop_all; [|exact Hdisj|].
    + split; [|reflexivity]. intros a. now apply Hslots.
    + intros i Hi. unfold element.
      rewrite (@after_prefix_source _ _ _ src dst n n i m Hdisj) by lia.
      rewrite <- (Hall i Hi). now apply check_element_klass.
  - rewrite (copy_loop_first_refused decorators src_obj dst_obj dst_klass m
               Hdisj Hk Hpass Hfail).
    set (m1 := {| heap := heap (after_prefix src dst k m);
                  current := set_pending_exception e (current m);
                  trace := trace m ++ checked_trace src dst k
                             ++ [LoadElem (element_address src k)] |}).
    change (objArrayOop_element_klass (heap m1) dst_obj) with dst_klass.
    rewrite (@copy_loop_first_refused _ _ _ _ _ decorators src_obj dst_obj
               dst_klass n k src dst m1 e Hdisj Hk).
    + split; [|reflexivity]. intros a.
      change (slot (heap (after_prefix src dst k (after_prefix src dst k m))) a
              = slot (heap (after_prefix src dst k m)) a).
      apply Hslots. lia.
    + intros i Hi. unfold element.
      change (heap m1) with (heap (after_prefix src dst k m)).
      rewrite (@after_prefix_source _ _ _ src dst k n i m Hdisj) by lia.
      rewrite <- (Hpass i Hi). now apply check_element_klass.
    + unfold element.
      change (heap m1) with (heap (after_prefix src dst k m)).
      rewrite (@after_prefix_source _ _ _ src dst k n k m Hdisj) by lia.
      rewrite <- Hfail. now apply check_element_klass.
Qed.

(** X8.  The three diagnostics can always be told apart, whatever the
    class names: the whole-array text, the single-element text and the
    null-store text are pairwise different. *)
Theorem arraycopy_messages_differ
    (stype bound stype' bound' bound'' : Klass) :
  is_subtype_of bound stype = false ->
  is_subtype_of bound' stype' = true ->
  array_store_message stype bound <> array_store_message stype' bound'
  /\ array_store_message stype bound <> null_pointer_store_message bound''
  /\ array_store_message stype' bound' <> null_pointer_store_message bound''.
Proof.
  intros Hwhole Helem. unfold array_store_message, null_pointer_store_message.
  rewrite Hwhole, Helem. simpl. repeat split; discriminate.
Qed.
End ArrayCopyFurther.

(* ===================================================================== *)
(** * Further properties of the start-up hooks                            *)
(* ===================================================================== *)

Section StartupFurther.

(** X9.  What a call of [set_barrier_set] with a barrier set instance can
    do, and which contract it reports first.  It returns only on a VM
    without a barrier set whose current thread is a Java thread not on the
    thread list, and then with the instance installed and
    [on_thread_create] notified once.  When it halts the VM with a fatal
    error, the message is "Already initialized" if a barrier set is
    installed, whatever the thread; else the Java-thread message if the
    thread is not a Java thread; else the thread-list message. *)
Theorem set_barrier_set_outcome (barrier_set : BarrierSet) (vm : VM) :
  (forall vm',
     set_barrier_set barrier_set vm = Ok vm' ->
     _barrier_set vm = None
     /\ is_Java_thread (Thread_current vm) = true
     /\ on_thread_list (Thread_current vm) = false
     /\ vm' = {| _barrier_set := Some barrier_set;
                 Thread_current := Thread_current vm;
                 notifications :=
                   notifications vm
                     ++ [on_thread_create barrier_set (Thread_current vm)] |})
  /\
  (forall message,
     set_barrier_set barrier_set vm = Fatal message ->
     (_barrier_set vm <> None /\ message = "Already initialized"%string)
     \/ (_barrier_set vm = None
         /\ is_Java_thread (Thread_current vm) = false
         /\ message = "Expected main thread to be a JavaThread"%string)
     \/ (_barrier_set vm = None
         /\ is_Java_thread (Thread_current vm) = true
         /\ on_thread_list (Thread_current vm) = true
         /\ message = "Main thread already on thread list."%string)).
Proof.
  unfold set_barrier_set, assert. simpl.
  destruct (_barrier_set vm) as [installed|] eqn:Hbs; simpl.
  - split; [discriminate|]. intros message [= <-].
    left. split; [discriminate|reflexivity].
  - destruct (is_Java_thread (Thread_current vm)) eqn:Hjava; simpl.
    + destruct (on_thread_list (Thread_current vm)) eqn:Hlist; simpl.
      * split; [discriminate|]. intros message [= <-].
        right. right. repeat split.
      * split; [|discriminate]. intros vm' [= <-]. repeat split.
    + split; [discriminate|]. intros message [= <-].
      right. left. repeat split.
Qed.

Lemma set_barrier_set_returned (barrier_set : BarrierSet) (vm vm' : VM) :
  set_barrier_set barrier_set vm = Ok vm' ->
  _barrier_set vm = None
  /\ vm' = {| _barrier_set := Some barrier_set;
              Thread_current := Thread_current vm;
              notifications :=
                notifications vm
                  ++ [on_thread_create barrier_set (Thread_current vm)] |}.
Proof.
  unfold set_barrier_set, assert. simpl.
  destruct (_barrier_set vm); simpl; [discriminate|].
  destruct (is_Java_thread (Thread_current vm)); simpl; [|discriminate].
  destruct (on_thread_list (Thread_current vm)); simpl; [discriminate|].
  intros [= <-]. now split.
Qed.

(** The notifications of [k] stub initialisations of a barrier set. *)
Lemma stub_notifications_snoc (a : BarrierSetAssembler) (k : nat) :
  repeat (barrier_stubs_init a) k ++ [barrier_stubs_init a]
  = repeat (barrier_stubs_init a) (S k).
Proof. simpl. now rewrite repeat_cons. Qed.

Lemma run_app_state (ZERO : bool) (calls : list call) :
  forall (main : Thread) (vm vm' : VM),
    (Thread_current vm = main
     /\ match _barrier_set vm with
        | None => notifications vm = []
        | Some bs =>
            exists k,
              notifications vm
              = on_thread_create bs main
                  :: match _barrier_set_assembler bs with
                     | Some a => repeat (barrier_stubs_init a) k
                     | None => []
                     end
              /\ (ZERO = true -> k = 0%nat)
        end) ->
    run ZERO calls vm = Ok vm' ->
    Thread_current vm' = main
    /\ match _barrier_set vm' with
       | None => notifications vm' = []
       | Some bs =>
           exists k,
             notifications vm'
             = on_thread_create bs main
                 :: match _barrier_set_assembler bs with
                    | Some a => repeat (barrier_stubs_init a) k
                    | None => []
                    end
             /\ (ZERO = true -> k = 0%nat)
       end.
Proof.
  induction calls as [|c rest IH]; intros main vm vm' Hinv Hrun; simpl in Hrun.
  - injection Hrun as <-. exact Hinv.
  - destruct (do_call ZERO c vm) as [vm1| |] eqn:Hcall; try discriminate.
    apply (IH main vm1 vm'); [|exact Hrun].
    destruct Hinv as [Hthread Hnotes].
    destruct c as [barrier_set|]; simpl in Hcall.
    + apply set_barrier_set_returned in Hcall as (Hnone & ->).
      rewrite Hnone in Hnotes. simpl. split; [exact Hthread|].
      exists 0%nat. rewrite Hnotes, Hthread.
      split; [|reflexivity]. now destruct (_barrier_set_assembler barrier_set).
    + unfold gc_barrier_stubs_init in Hcall. destruct ZERO.
      * injection Hcall as <-. now split.
      * destruct (_barrier_set vm) as [bs|] eqn:Hbs; [|discriminate].
        destruct (_barrier_set_assembler bs) as [a|] eqn:Hasm; [|discriminate].
        injection Hcall as <-. simpl. rewrite Hbs, Hasm.
        split; [exact Hthread|].
        destruct Hnotes as (k & Hnotes & _). exists (S k).
        split; [|discriminate].
        rewrite Hnotes. simpl app. now rewrite stub_notifications_snoc.
Qed.

(** X10.  Every state the VM reaches from its initial state by calls of the
    two entry points has this shape: the current thread is still the main
    thread; with no barrier set installed nothing has been notified; with a
    barrier set installed the notifications are one [on_thread_create] of
    that barrier set for the main thread, followed only by stub
    initialisations of that barrier set's assembler, none at all in a
    [ZERO] build. *)
Theorem startup_notifications_shape
    (ZERO : bool) (calls : list call) (main : Thread) (vm' : VM) :
  run ZERO calls (initial_VM main) = Ok vm' ->
  Thread_current vm' = main
  /\ match _barrier_set vm' with
     | None => notifications vm' = []
     | Some bs =>
         exists k,
           notifications vm'
           = on_thread_create bs main
               :: match _barrier_set_assembler bs with
                  | Some a => repeat (barrier_stubs_init a) k
                  | None => []
                  end
           /\ (ZERO = true -> k = 0%nat)
     end.
Proof.
  intros Hrun. apply (@run_app_state ZERO calls main (initial_VM main) vm');
    [|exact Hrun].
  split; reflexivity.
Qed.

Lemma run_installed_only_stubs (rest : list call) :
  forall (bs : BarrierSet) (vm vm' : VM),
    _barrier_set vm = Some bs ->
    run false rest vm = Ok vm' ->
    rest = repeat call_gc_barrier_stubs_init (List.length rest)
    /\ exists a_notes,
         vm' = {| _barrier_set := Some bs;
                  Thread_current := Thread_current vm;
                  notifications := notifications vm ++ a_notes |}
         /\ List.length a_notes = List.length rest
         /\ forall note, In note a_notes ->
              exists a, _barrier_set_assembler bs = Some a
                        /\ note = barrier_stubs_init a.
Proof.
  induction rest as [|c rest IH]; intros bs vm vm' Hbs Hrun; simpl in Hrun.
  - injection Hrun as <-. split; [reflexivity|].
    exists []. rewrite app_nil_r. destruct vm as [b t ns]. simpl in *.
    subst b. repeat split. intros note [].
  - destruct c as [other|]; simpl in Hrun.
    + now rewrite (@set_barrier_set_again bs other vm Hbs) in Hrun.
    + unfold gc_barrier_stubs_init in Hrun. rewrite Hbs in Hrun.
      destruct (_barrier_set_assembler bs) as [a|] eqn:Hasm; [|discriminate].
      destruct (IH bs (notify (barrier_stubs_init a) vm) vm' Hbs Hrun)
        as (Hrest & a_notes & -> & Hlen & Hnotes).
      split; [simpl; f_equal; exact Hrest|].
      exists (barrier_stubs_init a :: a_notes). simpl.
      rewrite <- app_assoc. repeat split; [now rewrite Hlen|].
      intros note [<- | Hin]; [now exists a|].
      rewrite <- Hasm. now apply Hnotes.
Qed.

(** X11.  In a build with generated code the only call sequences the VM
    survives from its initial state are the empty one and one
    [set_barrier_set] followed by stub initialisations only: a stub
    initialisation before the barrier set exists dereferences [NULL], a
    second [set_barrier_set] is fatal.  Nothing guards the stub
    initialisation against being repeated: each of the [k] calls notifies
    the assembler again, so the VM ends with exactly [k + 1]
    notifications. *)
Theorem startup_call_protocol (calls : list call) (main : Thread) (vm' : VM) :
  run false calls (initial_VM main) = Ok vm' ->
  (calls = [] /\ vm' = initial_VM main)
  \/ exists (bs : BarrierSet) (k : nat),
       calls = call_set_barrier_set bs :: repeat call_gc_barrier_stubs_init k
       /\ _barrier_set vm' = Some bs
       /\ List.length (notifications vm') = S k
       /\ (k = 0%nat \/ exists a, _barrier_set_assembler bs = Some a
                                 /\ notifications vm'
                                    = on_thread_create bs main
                                        :: repeat (barrier_stubs_init a) k).
Proof.
  intros Hrun. destruct calls as [|c rest]; simpl in Hrun.
  - left. injection Hrun as <-. now split.
  - right. destruct c as [bs|]; simpl in Hrun; [|discriminate].
    destruct (set_barrier_set bs (initial_VM main)) as [vm1| |] eqn:Hcall;
      try discriminate.
    apply set_barrier_set_returned in Hcall as (_ & ->). simpl in Hrun.
    apply (@run_installed_only_stubs rest bs) in Hrun
      as (Hrest & a_notes & -> & Hlen & Hnotes); [|reflexivity].
    exists bs, (List.length rest). simpl.
    split; [f_equal; exact Hrest|]. split; [reflexivity|].
    split; [now rewrite Hlen|].
    destruct a_notes as [|note a_notes].
    + left. now rewrite <- Hlen.
    + right. destruct (Hnotes note (or_introl eq_refl)) as (a & Hasm & ->).
      exists a. split; [exact Hasm|]. f_equal. rewrite <- Hlen.
      apply Forall_eq_repeat. apply Forall_forall. intros other Hin.
      destruct (Hnotes other Hin) as (a' & Hasm' & ->).
      rewrite Hasm in Hasm'. now injection Hasm' as <-.
Qed.
End StartupFurther.

(* ===================================================================== *)
(** * The further properties on the concrete heap                         *)
(* ===================================================================== *)

Section FurtherInstances.
Import Scenario.
#[local] Existing Instance java_klasses.
#[local] Existing Instance plain_oops.
#[local] Existing Instance flags.

Ltac index_cases i :=
  repeat (first [exfalso; lia | destruct i as [|i]; [split; reflexivity|]]).

(** Moving the last two elements of the [Object[]] one slot down, the
    ranges overlapping: with the cast check both arrive; with nulls
    forbidden the copy stops at the null, after the first one arrived. *)
Lemma checked_arraycopy_forward_overlap_witness :
  (let m' := oop_arraycopy_in_heap CHECKCAST_ONLY 4096 24 0 4096 16 0 2 machine in
   element (heap m') 4112 0 = 768
   /\ element (heap m') 4112 1 = NULL
   /\ current m' = main_thread)
  /\
  (let m' := oop_arraycopy_in_heap NOTNULL_ONLY 4096 24 0 4096 16 0 2 machine in
   element (heap m') 4112 0 = 768
   /\ element (heap m') 4112 1 = 768
   /\ pending_exception (current m')
      = Some (mkException java_lang_NullPointerException
                (null_pointer_store_message java_lang_Object))).
Proof.
  assert (Hsafe : (4112 : Z) <= 4120 \/ disjoint_ranges 4120 4112 2)
    by (left; vm_compute; discriminate).
  split.
  - destruct (@checked_arraycopy_forward_overlap JavaKlass java_klasses oop
                plain_oops flags CHECKCAST_ONLY 4096 24 0 4096 16 0 2%nat machine
                eq_refl Hsafe) as [Hall _].
    destruct Hall as [Hcopied Hcur].
    + intros i Hi. index_cases i.
    + split; [apply (Hcopied 0%nat); lia|].
      split; [apply (Hcopied 1%nat); lia|exact Hcur].
  - destruct (@checked_arraycopy_forward_overlap JavaKlass java_klasses oop
                plain_oops flags NOTNULL_ONLY 4096 24 0 4096 16 0 2%nat machine
                eq_refl Hsafe) as [_ Hfirst].
    destruct (Hfirst 1%nat) as (Hcopied & Hkept & Hcur).
    + lia.
    + intros i Hi. index_cases i.
    + left. reflexivity.
    + split; [apply (Hcopied 0%nat); lia|].
      split; [apply (Hkept 1%nat); lia|now rewrite Hcur].
Defined.

(** Copying the [Object[]] onto itself with both checks stops at the null
    and leaves the three slots as they were. *)
Lemma self_arraycopy_witness :
  let m' := oop_arraycopy_in_heap CHECKCAST_AND_NOTNULL
              4096 16 0 4096 16 0 3 machine in
  slot (heap m') 4112 = 512
  /\ slot (heap m') 4120 = 768
  /\ slot (heap m') 4128 = NULL.
Proof.
  pose proof (@self_arraycopy_keeps_every_slot JavaKlass java_klasses oop
                plain_oops flags CHECKCAST_AND_NOTNULL 4096 16 0 4096 16 0
                3%nat machine eq_refl) as Hkeeps.
  split; [apply (Hkeeps 4112)|]. split; [apply (Hkeeps 4120)|apply (Hkeeps 4128)].
Defined.

(** The copy of the [Object[]] into the [String[]] with both checks stops
    at the [B], so it is not the null-store exception that is pending. *)
Lemma checked_arraycopy_diagnosis_witness :
  let m' := oop_arraycopy_in_heap CHECKCAST_AND_NOTNULL
              4096 16 0 8192 16 0 3 machine in
  (current m' = main_thread
   /\ trace m' = checked_trace 4112 8208 3)
  \/ exists k,
       (k < 3)%nat
       /\ trace m' = checked_trace 4112 8208 k ++ [LoadElem (element_address 4112 k)]
       /\ ((HasDecorator CHECKCAST_AND_NOTNULL ARRAYCOPY_NOTNULL = true
            /\ is_null (element (heap m') 4112 k) = true
            /\ current m'
               = current (throw_array_null_pointer_store_exception
                            4096 8192 machine))
           \/ (HasDecorator CHECKCAST_AND_NOTNULL ARRAYCOPY_CHECKCAST = true
               /\ is_null (element (heap m') 4112 k) = false
               /\ is_instanceof_or_null (heap machine)
                    (decode (element (heap m') 4112 k)) java_lang_String = false
               /\ current m'
                  = current (throw_array_store_exception 4096 8192 machine))).
Proof.
  apply (@checked_arraycopy_diagnosis JavaKlass java_klasses oop plain_oops flags
           CHECKCAST_AND_NOTNULL 4096 16 0 8192 16 0 3%nat machine eq_refl).
Defined.

Lemma checked_arraycopy_access_bounds_witness :
  let m' := oop_arraycopy_in_heap CHECKCAST_ONLY 4096 16 0 8192 16 0 3 machine in
  exists (added : list access) (r w : nat),
    trace m' = added
    /\ flat_map (elements_read heapOopSize) added
       = map (element_address 4112) (seq 0 r)
    /\ flat_map (elements_written heapOopSize) added
       = map (element_address 8208) (seq 0 w)
    /\ (w <= r)%nat /\ (r <= 3)%nat /\ (r <= S w)%nat
    /\ (r = w <-> w = 3%nat).
Proof.
  apply (@checked_arraycopy_access_bounds JavaKlass java_klasses oop plain_oops
           flags CHECKCAST_ONLY 4096 16 0 8192 16 0 3%nat machine eq_refl).
Defined.

(** The copy of three elements of the [Object[]] into the [String[]] is
    the copy of the first one followed by the copy of the other two. *)
Lemma checked_arraycopy_composes_witness :
  let m1 := oop_arraycopy_in_heap CHECKCAST_ONLY 4096 16 0 8192 16 0 1 machine in
  let whole := oop_arraycopy_in_heap CHECKCAST_ONLY 4096 16 0 8192 16 0 3 machine in
  (trace m1 = checked_trace 4112 8208 1
   /\ whole = oop_arraycopy_in_heap CHECKCAST_ONLY
                4096 (16 + Z.of_nat 1 * heapOopSize) 0
                8192 (16 + Z.of_nat 1 * heapOopSize) 0 2 m1)
  \/ (exists k, (k < 1)%nat
                /\ trace m1 = checked_trace 4112 8208 k
                                ++ [LoadElem (element_address 4112 k)]
                /\ whole = m1).
Proof.
  apply (@checked_arraycopy_composes JavaKlass java_klasses oop plain_oops flags
           CHECKCAST_ONLY 4096 16 0 8192 16 0 1%nat 2%nat machine eq_refl).
  - vm_compute. discriminate.
  - vm_compute. discriminate.
Defined.

Lemma checked_arraycopy_idempotent_witness :
  let m1 := oop_arraycopy_in_heap CHECKCAST_ONLY 4096 16 0 8192 16 0 3 machine in
  let m2 := oop_arraycopy_in_heap CHECKCAST_ONLY 4096 16 0 8192 16 0 3 m1 in
  slot (heap m2) 8208 = slot (heap m1) 8208
  /\ slot (heap m2) 8216 = slot (heap m1) 8216
  /\ current m2 = current m1.
Proof.
  assert (Hdisj : disjoint_ranges 4112 8208 3) by (left; vm_compute; discriminate).
  destruct (@checked_arraycopy_idempotent JavaKlass java_klasses oop plain_oops
              flags CHECKCAST_ONLY 4096 16 0 8192 16 0 3%nat machine eq_refl Hdisj)
    as [Hslots Hcur].
  split; [apply (Hslots 8208)|]. split; [apply (Hslots 8216)|exact Hcur].
Defined.

Lemma arraycopy_messages_differ_witness :
  array_store_message class_B java_lang_String
  <> array_store_message java_lang_Object java_lang_String
  /\ array_store_message class_B java_lang_String
     <> null_pointer_store_message java_lang_String
  /\ array_store_message java_lang_Object java_lang_String
     <> null_pointer_store_message java_lang_String.
Proof.
  apply (@arraycopy_messages_differ JavaKlass java_klasses
           class_B java_lang_String java_lang_Object java_lang_String
           java_lang_String eq_refl eq_refl).
Defined.

(** The first call on the initial VM returns; a call on the VM it leaves
    is refused as already initialized. *)
Lemma set_barrier_set_outcome_witness :
  (_barrier_set (initial_VM main_thread) = None
   /\ is_Java_thread main_thread = true
   /\ on_thread_list main_thread = false)
  /\
  (let installed := {| _barrier_set := Some a_barrier_set;
                      Thread_current := main_thread;
                      notifications :=
                        [on_thread_create a_barrier_set main_thread] |} in
   (_barrier_set installed <> None
    /\ "Already initialized"%string = "Already initialized"%string)
   \/ (_barrier_set installed = None
       /\ is_Java_thread main_thread = false
       /\ "Already initialized"%string
          = "Expected main thread to be a JavaThread"%string)
   \/ (_barrier_set installed = None
       /\ is_Java_thread main_thread = true
       /\ on_thread_list main_thread = true
       /\ "Already initialized"%string
          = "Main thread already on thread list."%string)).
Proof.
  split.
  - destruct (set_barrier_set_outcome a_barrier_set (initial_VM main_thread))
      as [Hreturned _].
    destruct (Hreturned _ eq_refl) as (Hnone & Hjava & Hlist & _).
    split; [exact Hnone|]. split; [exact Hjava|exact Hlist].
  - intros installed.
    destruct (set_barrier_set_outcome another_barrier_set installed)
      as [_ Hfatal].
    apply (Hfatal "Already initialized"%string eq_refl).
Defined.

(** Installing the barrier set and initialising the stubs twice. *)
Lemma startup_notifications_shape_witness :
  exists vm',
    run false [call_set_barrier_set a_barrier_set;
               call_gc_barrier_stubs_init; call_gc_barrier_stubs_init]
        (initial_VM main_thread) = Ok vm'
    /\ Thread_current vm' = main_thread
    /\ match _barrier_set vm' with
       | None => notifications vm' = []
       | Some bs =>
           exists k,
             notifications vm'
             = on_thread_create bs main_thread
                 :: match _barrier_set_assembler bs with
                    | Some a => repeat (barrier_stubs_init a) k
                    | None => []
                    end
             /\ (false = true -> k = 0%nat)
       end.
Proof.
  eexists. split; [reflexivity|].
  apply (@startup_notifications_shape false
           [call_set_barrier_set a_barrier_set;
            call_gc_barrier_stubs_init; call_gc_barrier_stubs_init]
           main_thread _ eq_refl).
Defined.

Lemma startup_call_protocol_witness :
  exists vm',
    run false [call_set_barrier_set a_barrier_set;
               call_gc_barrier_stubs_init; call_gc_barrier_stubs_init]
        (initial_VM main_thread) = Ok vm'
    /\ List.length (notifications vm') = 3%nat.
Proof.
  eexists. split; [reflexivity|].
  destruct (@startup_call_protocol
              [call_set_barrier_set a_barrier_set;
               call_gc_barrier_stubs_init; call_gc_barrier_stubs_init]
              main_thread _ eq_refl)
    as [[Hnil _] | (bs & k & Hcalls & _ & Hlen & _)].
  - discriminate Hnil.
  - injection Hcalls as _ Hk. destruct k as [|[|[|k]]]; try discriminate Hk.
    exact Hlen.
Defined.
End FurtherInstances.
